(** * The spinner compiler of alive-progress

    A shallow embedding of [alive_progress/animations/spinner_compiler.py]:
    the compiler commands ([replace], [pause], [reshape], [transpose],
    [randomize]), the compiler itself ([spinner_compiler]), the runner
    ([spinner_runner_factory]) and the controller ([schedule_command],
    [set_operational], [compiler_dispatcher]), followed by the properties
    proved about them. *)

From Stdlib Require Import ZArith List String Ascii HexString DecimalString Lia.
From stdpp Require Import base option list strings gmap.
From Equations Require Import Equations.
From Equations.Prop Require Import Logic.

Local Open Scope nat_scope.

(** ** Python values, exceptions and the builtins the module relies on *)

Module Py.

(** The values a caller hands to a command: [None], an [int] or a [str],
    a [str] being a string of the Standard Library. Integers and tuples are
    as long as they need to be: running out of memory is not modelled. *)
Inductive value : Type :=
| VNone
| VInt (z : Z)
| VStr (s : string).

Inductive exn : Type :=
| IndexError
| ValueError
| TypeError
| RuntimeError
| KeyError
| OverflowError
| StopIteration
| AttributeError (attr : string)
| AssertionError (arg : value).

(** A computation prints lines on the standard output and then either
    raises or returns. *)
Definition py (A : Type) : Type := (list string * (exn + A))%type.

Definition ret {A} (a : A) : py A := ([], inr a).
Definition raise {A} (e : exn) : py A := ([], inl e).
Definition print (s : string) : py unit := ([s], inr tt).

Definition bind {A B} (m : py A) (k : A -> py B) : py B :=
  match m with
  | (out, inl e) => (out, inl e)
  | (out, inr a) => let '(out', r) := k a in (out ++ out', r)
  end.

Definition stdout {A} (m : py A) : list string := fst m.
Definition outcome {A} (m : py A) : exn + A := snd m.

(** Truth value of an object: [None], [0] and the empty string are false. *)
Definition truthy (v : value) : bool :=
  match v with
  | VNone => false
  | VInt z => negb (z =? 0)%Z
  | VStr s => negb (String.eqb s EmptyString)
  end.

(** [a or b] *)
Definition or_ (a b : value) : value := if truthy a then a else b.

(** [max(k, v)] for an integer [k]: comparing an [int] with a [str] or with
    [None] raises [TypeError]. *)
Definition max_int (k : Z) (v : value) : py Z :=
  match v with
  | VInt z => ret (Z.max k z)
  | _ => raise TypeError
  end.

(** [seq[i]] on a tuple, for [i >= 0]. *)
Definition getitem {A} (seq : list A) (i : nat) : py A :=
  match seq !! i with
  | Some a => ret a
  | None => raise IndexError
  end.

(** [max(...)] and [min(...)] of a generator: [ValueError] when it is empty. *)
Definition max_of (l : list nat) : py nat :=
  match l with
  | [] => raise ValueError
  | x :: l' => ret (foldl Nat.max x l')
  end.

Definition min_of (l : list nat) : py nat :=
  match l with
  | [] => raise ValueError
  | x :: l' => ret (foldl Nat.min x l')
  end.

(** [str(n)] for a natural number. *)
Definition str (n : nat) : string := NilZero.string_of_uint (Nat.to_uint n).

(** [sep.join(parts)] *)
Definition join (sep : string) (parts : list string) : string :=
  String.concat sep parts.

(** [s.replace(old, new)]: every non-overlapping occurrence of [old], found
    from the left, becomes [new]; an empty [old] matches before every
    character and at the end. [skip] counts the characters of the current
    occurrence still to be dropped. *)
Fixpoint replace_from (old new : string) (skip : nat) (s : string) : string :=
  match s with
  | EmptyString => EmptyString
  | String c s' =>
      match skip with
      | S k => replace_from old new k s'
      | O =>
          if String.prefix old s
          then String.append new (replace_from old new (String.length old - 1) s')
          else String c (replace_from old new 0 s')
      end
  end.

Fixpoint intersperse_all (new : string) (s : string) : string :=
  match s with
  | EmptyString => new
  | String c s' => String.append new (String c (intersperse_all new s'))
  end.

Definition str_replace (s old new : string) : string :=
  match old with
  | EmptyString => intersperse_all new s
  | _ => replace_from old new 0 s
  end.

(** [hex(n).replace('0x', '')] *)
Definition hex_digits (n : N) : string :=
  str_replace (HexString.of_N n) "0x" EmptyString.

(** [sys.maxsize], the largest [ssize_t] of a 64-bit build. *)
Definition maxsize : Z := 9223372036854775807.

(** [itertools.repeat(x, n)]: the count is taken as an [ssize_t], one that
    does not fit raises [OverflowError]; nothing when [n <= 0]. *)
Definition repeat {A} (x : A) (n : Z) : py (list A) :=
  if (n <? - maxsize - 1)%Z || (maxsize <? n)%Z then raise OverflowError
  else ret (replicate (Z.to_nat n) x).

(** [iter(lambda: tuple(islice(it, stop)), ())]: the iterator [it] is read
    [stop] items at a time until a read comes back empty. *)
Equations? iter_islice {A} (stop : nat) (it : list A) : list (list A)
  by wf (length it) lt :=
  iter_islice stop it with inspect (take stop it) := {
    | exist _ [] _ := [];
    | exist _ (x :: g) Heq := (x :: g) :: iter_islice stop (drop stop it) }.
Proof.
  destruct stop; [done|]. destruct it; [done|].
  rewrite length_drop. simpl. lia.
Qed.

(** [zip] applied to the unpacked rows: one tuple per round, each round
    taking the next item of every row, until a row is exhausted; no tuple
    at all without rows. The first argument follows the first row, which
    bounds the rounds. *)
Fixpoint zip_rounds {A} (first : list A) (rows : list (list A)) : list (list A) :=
  match first with
  | [] => []
  | _ :: first' =>
      match mapM head rows with
      | None => []
      | Some round => round :: zip_rounds first' (map tail rows)
      end
  end.

Definition zip_star {A} (rows : list (list A)) : list (list A) :=
  match rows with
  | [] => []
  | first :: _ => zip_rounds first rows
  end.

(** The generator behind [random]: [tape] lists the draws still to come. *)
Record rng : Type := Rng { tape : nat -> nat; pos : nat }.

(** [random.choice(seq)]: [IndexError] on an empty sequence, otherwise the
    item at a drawn index below [len(seq)]. *)
Definition choice {A} (seq : list A) (g : rng) : (exn + A) * rng :=
  match seq with
  | [] => (inl IndexError, g)
  | a :: _ =>
      (inr (nth (tape g (pos g) mod length seq) seq a),
       Rng (tape g) (S (pos g)))
  end.

End Py.

Import Py.

Notation "'let*' x ':=' m 'in' k" := (Py.bind m (fun x => k))
  (at level 10, x name, m at level 100, k at level 200, only parsing).

(** ** Cells, frames and the compiled spec *)

(** A cell is a grapheme, or the [None] that follows a wide grapheme. *)
Abbreviation cell := (option string) (only parsing).
Abbreviation frame := (list cell) (only parsing).
Abbreviation cycle := (list frame) (only parsing).

(** [utils/cells.py] and [utils/colors.py] are not part of the sources at
    hand: the functions imported from them are parameters of the model. *)
Class CellModel : Type := {
  fix_cells : frame -> frame;
  to_cells : string -> frame;
  join_cells : frame -> string;
  strip_marks : frame -> list string;
  is_wide : string -> bool
}.

(** A colour takes the text and a format spec. *)
Class Colors : Type := {
  BLUE : string -> string -> string;
  ORANGE : string -> string -> string;
  RED : string -> string -> string;
  DIM : string -> string -> string;
  ORANGE_BOLD : string -> string -> string
}.

(** The [SimpleNamespace] built by [spinner_compiler]. The attributes set by
    the "generate spec info" step are absent until then. The attributes
    [t_compile] and [runner], which the runner factory adds, carry the timing
    and a back reference and are left out. *)
Module Spec.
Record t : Type := Build {
  data : list cycle;
  natural : Z;
  randomize : bool;
  cycles : option Z;
  length : option nat;
  frames : option (list nat);
  total_frames : option nat
}.

Definition set_data (d : list cycle) (s : t) : t :=
  Build d (natural s) (randomize s) (cycles s) (length s) (frames s) (total_frames s).

Definition set_randomize_cycles (r : bool) (c : Z) (s : t) : t :=
  Build (data s) (natural s) r (Some c) (length s) (frames s) (total_frames s).

Definition set_info (c : Z) (l : nat) (f : list nat) (tf : nat) (s : t) : t :=
  Build (data s) (natural s) (randomize s) (Some c) (Some l) (Some f) (Some tf).
End Spec.

(** [spec.cycles] *)
Definition get_cycles (spec : Spec.t) : py Z :=
  match Spec.cycles spec with
  | Some c => ret c
  | None => raise (AttributeError "cycles")
  end.

(** ** The commands *)

(** A comprehension whose body may raise: the first failure ends it. *)
Fixpoint for_each {A B} (f : A -> py B) (l : list A) : py (list B) :=
  match l with
  | [] => ret []
  | a :: l' =>
      let* b := f a in
      let* bs := for_each f l' in
      ret (b :: bs)
  end.

(** [s.replace(old, new)] accepts strings only. *)
Definition str_replace_method (s : string) (old new : value) : py string :=
  match old, new with
  | VStr old, VStr new => ret (str_replace s old new)
  | _, _ => raise TypeError
  end.

Section Commands.
Context `{CellModel}.

Definition replace (spec : Spec.t) (old new : value) : py Spec.t :=
  let* data :=
    for_each (fun cycle =>
      for_each (fun frame =>
        let* text := str_replace_method (join_cells frame) old new in
        ret (to_cells text)) cycle) (Spec.data spec) in
  ret (Spec.set_data data spec).

(** The frames of a cycle are repeated one after the other, as the tuple
    of the cycle is built: [enumerate] is the list of the places and their
    frames. *)
Definition pause (spec : Spec.t) (n_edges n_middle : value) : py Spec.t :=
  let* n_edges := max_int 1 (or_ n_edges (VInt 6)) in
  let* n_middle := max_int 1 (or_ n_middle (VInt 1)) in
  let* data :=
    for_each (fun cycle : cycle =>
                let length := Z.of_nat (List.length cycle) in
                let* runs :=
                  for_each (fun '(i, frame) =>
                              Py.repeat frame
                                (if (Z.of_nat i =? 0)%Z || (Z.of_nat i =? length - 1)%Z
                                 then n_edges else n_middle))
                           (imap pair cycle) in
                ret (concat runs))
             (Spec.data spec) in
  ret (Spec.set_data data spec).

(** [islice] takes [None] (no limit) or an integer from [0] to
    [sys.maxsize] as its stop and raises [ValueError] on anything else, at
    the first read, which takes place whatever the data. Without a limit
    the first read takes every frame left. *)
Definition reshape (spec : Spec.t) (num_frames : value) : py Spec.t :=
  let flatten := concat (Spec.data spec) in
  match num_frames with
  | VNone =>
      ret (Spec.set_data (match flatten with [] => [] | _ => [flatten] end) spec)
  | VInt n =>
      if (n <? 0)%Z || (maxsize <? n)%Z then raise ValueError
      else ret (Spec.set_data (iter_islice (Z.to_nat n) flatten) spec)
  | VStr _ => raise ValueError
  end.

Definition transpose (spec : Spec.t) : py Spec.t :=
  ret (Spec.set_data (zip_star (Spec.data spec)) spec).

(** [max(0, cycles or 0) or spec.cycles]: the attribute is read only when
    the left operand is [0]. *)
Definition randomize (spec : Spec.t) (cycles : value) : py Spec.t :=
  let* n := max_int 0 (or_ cycles (VInt 0)) in
  let* c := (if (n =? 0)%Z then get_cycles spec else ret n) in
  ret (Spec.set_randomize_cycles true c spec).

(** Modelled from the spec: [sequential], the command the runner factory
    falls back on, is named in the source but defined nowhere in it; the
    spec makes it a selection that changes nothing. *)
Definition sequential (spec : Spec.t) : py Spec.t := ret spec.

End Commands.

(** ** Signatures and the command table *)

Inductive command : Type :=
| Creplace
| Cpause
| Creshape
| Ctranspose
| Crandomize
| Csequential.

(** A positional-or-keyword parameter; [p_default] is absent for a required
    one. *)
Record parameter : Type := Parameter_ { p_name : string; p_default : option value }.

Definition signature (c : command) : list parameter :=
  match c with
  | Creplace => [Parameter_ "spec" None; Parameter_ "old" None; Parameter_ "new" None]
  | Cpause => [Parameter_ "spec" None; Parameter_ "n_edges" (Some VNone);
               Parameter_ "n_middle" (Some VNone)]
  | Creshape => [Parameter_ "spec" None; Parameter_ "num_frames" None]
  | Ctranspose => [Parameter_ "spec" None]
  | Crandomize => [Parameter_ "spec" None; Parameter_ "cycles" (Some VNone)]
  | Csequential => [Parameter_ "spec" None]
  end.

(** [EXTRA_COMMANDS], filled by the decorators: [pre_compiler_command] is
    [extra_command(False)], [post_compiler_command] is [extra_command(True)]. *)
Definition EXTRA_COMMANDS (c : command) : option bool :=
  match c with
  | Creplace | Cpause | Creshape | Ctranspose => Some false
  | Crandomize => Some true
  | Csequential => None
  end.

(** [Signature.bind], first the positional arguments: each
    takes the next parameter, which must exist and must not be named in
    [kwargs] as well. *)
Fixpoint bind_positional (params : list parameter) (args : list value)
    (kwargs arguments : gmap string value)
    : py (list parameter * gmap string value) :=
  match args with
  | [] => ret (params, arguments)
  | arg_val :: args' =>
      match params with
      | [] => raise TypeError
      | param :: params' =>
          match kwargs !! p_name param with
          | Some _ => raise TypeError
          | None =>
              bind_positional params' args' kwargs (<[p_name param := arg_val]> arguments)
          end
      end
  end.

(** Then the remaining parameters: each pops its keyword argument, or must
    have a default. *)
Fixpoint bind_keywords (params : list parameter) (kwargs arguments : gmap string value)
    : py (gmap string value * gmap string value) :=
  match params with
  | [] => ret (kwargs, arguments)
  | param :: params' =>
      match kwargs !! p_name param with
      | Some arg_val =>
          bind_keywords params' (delete (p_name param) kwargs)
            (<[p_name param := arg_val]> arguments)
      | None =>
          match p_default param with
          | Some _ => bind_keywords params' kwargs arguments
          | None => raise TypeError
          end
      end
  end.

(** No keyword argument may be left over. *)
Definition sig_bind (params : list parameter) (args : list value)
    (kwargs : gmap string value) : py (gmap string value) :=
  let* pa := bind_positional params args kwargs ∅ in
  let* ka := bind_keywords (fst pa) kwargs (snd pa) in
  if decide (fst ka = ∅) then ret (snd ka) else raise TypeError.

(** A scheduled command: [(command, args, kwargs)]. *)
Definition record : Type := (command * list value * gmap string value)%type.

(** ** The state of a runner *)

(** The generator [cycle_gen]. [ordered_cycle_data] holds what is left of
    the tuple its [yield from] is walking, nothing before the first [next]
    and between two passes; a generator that raised is [finished]. *)
Inductive cycle_gen : Type :=
| ordered_cycle_data (pending : list cycle)
| random_cycle_data
| finished.

(** [r_attributes] is the copy of the spec's attributes made on the runner
    function, [r_spec] the namespace the generators read, [r_cycle_gen] the
    generator [cycle_gen]. *)
Record runner : Type := Runner {
  r_attributes : Spec.t;
  r_spec : Spec.t;
  r_cycle_gen : cycle_gen
}.

(** What a [next], or a whole walk of a generator, comes to. *)
Inductive step (A : Type) : Type :=
| Yield (a : A)
| Raise (e : exn)
| Diverge.
Arguments Yield {A} a.
Arguments Raise {A} e.
Arguments Diverge {A}.

Section Compiler.
Context `{CellModel} `{Colors}.

(** Calling a command on [spec] and the stored arguments: the spec takes
    the first parameter (its place is held by [1] as in [schedule_command],
    the binding does not look at it), the rest are bound as by [sig_bind]
    and an unbound parameter takes its default, which is [None] for every
    optional one. *)
Definition call (c : command) (spec : Spec.t) (args : list value)
    (kwargs : gmap string value) : py Spec.t :=
  let* arguments := sig_bind (signature c) (VInt 1 :: args) kwargs in
  let arg name := default VNone (arguments !! name) in
  match c with
  | Creplace => replace spec (arg "old") (arg "new")
  | Cpause => pause spec (arg "n_edges") (arg "n_middle")
  | Creshape => reshape spec (arg "num_frames")
  | Ctranspose => transpose spec
  | Crandomize => randomize spec (arg "cycles")
  | Csequential => sequential spec
  end.

Fixpoint apply_extra_commands (spec : Spec.t) (extra_commands : list record)
    : py Spec.t :=
  match extra_commands with
  | [] => ret spec
  | (command, args, kwargs) :: rest =>
      let* spec := call command spec args kwargs in
      apply_extra_commands spec rest
  end.

(** *** The frame dump *)

Definition nl : string := String (ascii_of_nat 10) EmptyString.

Definition get_frames (spec : Spec.t) : py (list nat) :=
  match Spec.frames spec with
  | Some f => ret f
  | None => raise (AttributeError "frames")
  end.

Definition get_total_frames (spec : Spec.t) : py nat :=
  match Spec.total_frames spec with
  | Some n => ret n
  | None => raise (AttributeError "total_frames")
  end.

Definition format_codepoints (frame : list string) : string :=
  let codes :=
    Py.join "|"
      (map (fun g =>
              (if is_wide g then ORANGE else BLUE)
                (Py.join " " (map (fun c => hex_digits (N_of_ascii c))
                                  (list_ascii_of_string g)))
                EmptyString)
           frame) in
  String.append " -> "
    (String.append (RED (str (sum_list (map String.length frame))) EmptyString)
       (String.append ":[" (String.append codes "]"))).

(** One [print] per cycle, after an empty [print] between cycles; [i]
    counts the cycles from 1 and [whole_index] the frames of all cycles. *)
Fixpoint render_cycles (lf wf : string) (codepoints : list string -> string)
    (i whole_index : nat) (cycles : list cycle) : py unit :=
  match cycles with
  | [] => ret tt
  | cycle :: rest =>
      let frames := map strip_marks cycle in
      let* _ := (if 1 <? i then print EmptyString else ret tt) in
      let* _ :=
        print (String.append "cycle "
                 (String.append (str i)
                    (String.append nl
                       (Py.join nl
                          (imap (fun k frame =>
                                   String.append (DIM (str (1 + k)) lf)
                                     (String.append " |"
                                        (String.append (Py.join EmptyString frame)
                                           (String.append "| "
                                              (String.append (DIM (str (whole_index + k)) wf)
                                                 (codepoints frame))))))
                                frames))))) in
      render_cycles lf wf codepoints (S i) (whole_index + List.length cycle) rest
  end.

(** [render_frames] prints and has no [return]: its value is [None]. *)
Definition render_frames (spec : Spec.t) (show_codepoints : bool) : py value :=
  let* _ := print (String.append nl (ORANGE_BOLD "Frame data" EmptyString)) in
  let* frames := get_frames spec in
  let* longest := max_of frames in
  let lf := String.append ">" (str (1 + String.length (str longest))) in
  let* total_frames := get_total_frames spec in
  let wf := String.append "<" (str (String.length (str total_frames))) in
  let codepoints := if show_codepoints then format_codepoints else fun _ => EmptyString in
  let* _ := render_cycles lf wf codepoints 1 1 (Spec.data spec) in
  ret VNone.

(** *** The compiler *)

Definition spinner_compiler (gen : list (list frame)) (natural : Z)
    (extra_commands : list record) : py Spec.t :=
  let spec :=
    Spec.Build (map (fun cycle => map fix_cells cycle) gen) natural false
      None None None None in
  let* spec := apply_extra_commands spec extra_commands in
  (* generate spec info. *)
  let frames := map (fun cycle : cycle => List.length cycle) (Spec.data spec) in
  let* cycle0 := getitem (Spec.data spec) 0 in
  let* frame0 := getitem cycle0 0 in
  let spec :=
    Spec.set_info (Z.of_nat (List.length (Spec.data spec))) (List.length frame0)
      frames (sum_list frames) spec in
  let widths :=
    concat (map (fun cycle : cycle => map (fun frame : frame => List.length frame) cycle)
                (Spec.data spec)) in
  let* widest := max_of widths in
  let* narrowest := min_of widths in
  if widest =? narrowest then ret spec
  else
    let* dump := render_frames spec true in
    raise (AssertionError
             (or_ dump (VStr "Different cell lengths detected in frame data."))).

(** *** The runner *)

(** [t_compile], a timing, is not modelled. *)
Definition spinner_runner_factory (spec : Spec.t) (extra_commands : list record)
    : py runner :=
  let attributes := spec in
  let cycle_gen :=
    if Spec.randomize spec then random_cycle_data else ordered_cycle_data [] in
  let* spec :=
    apply_extra_commands spec
      (match extra_commands with
       | [] => [(Csequential, [], ∅)]
       | _ => extra_commands
       end) in
  ret (Runner attributes spec cycle_gen).

(** [next(cycle_gen)]. With no cycle at all [ordered_cycle_data] loops
    without ever yielding. *)
Definition next_cycle (spec : Spec.t) (gen : cycle_gen) (g : rng)
    : step cycle * cycle_gen * rng :=
  match gen with
  | ordered_cycle_data (c :: pending) => (Yield c, ordered_cycle_data pending, g)
  | ordered_cycle_data [] =>
      match Spec.data spec with
      | c :: pending => (Yield c, ordered_cycle_data pending, g)
      | [] => (Diverge, gen, g)
      end
  | random_cycle_data =>
      match choice (Spec.data spec) g with
      | (inr c, g') => (Yield c, random_cycle_data, g')
      | (inl e, g') => (Raise e, finished, g')
      end
  | finished => (Raise StopIteration, finished, g)
  end.

(** One call of the runner, walked to its end: the frames it yields. The
    runner is a generator function, so the cycle is taken from [cycle_gen]
    when the walk starts. A [StopIteration] inside a generator surfaces as
    [RuntimeError]. *)
Definition spinner_runner (r : runner) (g : rng) : step (list frame) * runner * rng :=
  match next_cycle (r_spec r) (r_cycle_gen r) g with
  | (Yield c, gen, g') => (Yield c, Runner (r_attributes r) (r_spec r) gen, g')
  | (Raise StopIteration, gen, g') =>
      (Raise RuntimeError, Runner (r_attributes r) (r_spec r) gen, g')
  | (Raise e, gen, g') => (Raise e, Runner (r_attributes r) (r_spec r) gen, g')
  | (Diverge, gen, g') => (Diverge, Runner (r_attributes r) (r_spec r) gen, g')
  end.

(** [n] calls in a row, each walked to its end: the cycles they yield, as
    long as every call yields. *)
Fixpoint invocations (n : nat) (r : runner) (g : rng)
    : option (list (list frame) * runner * rng) :=
  match n with
  | O => Some ([], r, g)
  | S n' =>
      match spinner_runner r g with
      | (Yield c, r', g') =>
          match invocations n' r' g' with
          | Some (cs, r'', g'') => Some (c :: cs, r'', g'')
          | None => None
          end
      | _ => None
      end
  end.

End Compiler.

(** ** The controller *)

(** The variables a [compiler_dispatcher] closes over, beside the spinner
    factory itself. *)
Record controller : Type := Controller {
  op_params : gmap string value;
  extra_commands : gmap bool (list record)
}.

(** [inner_schedule]: the arguments are tried against the signature with [1]
    standing for the spec, then the command joins the list of its type in a
    copy of [extra_commands]. *)
Definition schedule_command (ctl : controller) (command : command)
    (args : list value) (kwargs : gmap string value) : py controller :=
  let* _ := sig_bind (signature command) (VInt 1 :: args) kwargs in
  let* cmd_type :=
    (match EXTRA_COMMANDS command with
     | Some t => ret t
     | None => raise KeyError
     end) in
  let extra :=
    <[cmd_type := default [] (extra_commands ctl !! cmd_type) ++ [(command, args, kwargs)]]>
      (extra_commands ctl) in
  ret (Controller (op_params ctl) extra).

(** ** A sample cell model

    Narrow one-character graphemes and colours that leave the text as it is:
    enough to run the definitions on concrete frames. *)

Module Sample.

Definition cells_of (s : string) : frame :=
  map (fun c => Some (String c EmptyString)) (list_ascii_of_string s).

Definition marks_stripped (f : frame) : list string := omap id f.

#[export] Instance cell_model : CellModel := {|
  fix_cells := id;
  to_cells := cells_of;
  join_cells := fun f => Py.join EmptyString (marks_stripped f);
  strip_marks := marks_stripped;
  is_wide := fun _ => false
|}.

Definition plain (text format_spec : string) : string := text.

#[export] Instance colors : Colors := {|
  BLUE := plain; ORANGE := plain; RED := plain; DIM := plain; ORANGE_BOLD := plain
|}.

(** A source that never consumes the tape beyond what it is given. *)
Definition rng_of (draws : list nat) : rng := Rng (fun i => nth i draws 0) 0.

End Sample.

(** ** Vocabulary of the properties *)

(** An argument that is an integer, or omitted ([None]). *)
Definition arg_of (n : option Z) : value :=
  match n with
  | Some z => VInt z
  | None => VNone
  end.

(** The repeat count [pause] works with: the default for an omitted or zero
    argument, and never less than one. *)
Definition effective (default : Z) (n : option Z) : Z :=
  Z.max 1 (match n with
           | Some z => if (z =? 0)%Z then default else z
           | None => default
           end).

(** A cycle whose first and last frames are repeated [n_edges] times and
    the frames between them [n_middle] times. *)
Definition paused_cycle (n_edges n_middle : nat) (c : cycle) : cycle :=
  match c with
  | [] => []
  | [only] => replicate n_edges only
  | first :: rest =>
      replicate n_edges first
        ++ flat_map (replicate n_middle) (removelast rest)
        ++ replicate n_edges (List.last rest first)
  end.

(** [pause] as it would be if both supplied integers were only floored at
    one. *)
Definition pause_floored (spec : Spec.t) (n_edges n_middle : Z) : Spec.t :=
  Spec.set_data
    (map (paused_cycle (Z.to_nat (Z.max 1 n_edges)) (Z.to_nat (Z.max 1 n_middle)))
         (Spec.data spec))
    spec.

(** The widths of all frames, cycle after cycle. *)
Definition widths (data : list cycle) : list nat :=
  concat (map (fun c : cycle => map (fun f : frame => List.length f) c) data).

(** Every frame of every cycle is [w] cells wide. *)
Definition uniform (w : nat) (data : list cycle) : Prop :=
  Forall (Forall (fun f : frame => List.length f = w)) data.

Definition different_lengths_message : string :=
  "Different cell lengths detected in frame data.".

(** [piece] occurs in [text]. *)
Definition occurs (piece text : string) : bool :=
  match String.index 0 piece text with
  | Some _ => true
  | None => false
  end.

(** A computation that prints nothing. *)
Definition silent {A} (m : py A) : Prop := stdout m = [].

(** The arguments fit the parameters. *)
Definition accepts (params : list parameter) (args : list value)
    (kwargs : gmap string value) : Prop :=
  exists arguments, sig_bind params args kwargs = ret arguments.

(** The arguments fit the parameters, said without the binding: there are
    no more positional arguments than parameters, every keyword is the name
    of a parameter that no positional argument has taken, and every such
    parameter without a default has its keyword. *)
Definition fits (params : list parameter) (args : list value)
    (kwargs : gmap string value) : Prop :=
  List.length args <= List.length params /\
  (forall k, is_Some (kwargs !! k) ->
             k ∈ map p_name (drop (List.length args) params)) /\
  (forall p, p ∈ drop (List.length args) params -> p_default p = None ->
             is_Some (kwargs !! p_name p)).

(** A spec with frame data only, as the commands see it before the
    compiler has generated the spec info. *)
Definition spec_of (data : list cycle) : Spec.t :=
  Spec.Build data 0 false None None None None.

Section Vocabulary.
Context `{CellModel} `{Colors}.

(** The namespace [spinner_compiler] starts from. *)
Definition initial (gen : list (list frame)) (natural : Z) : Spec.t :=
  Spec.Build (map (fun c => map fix_cells c) gen) natural false None None None None.

(** The attributes of the "generate spec info" step, set on [spec]. *)
Definition with_info (spec : Spec.t) (frame0 : frame) : Spec.t :=
  Spec.set_info (Z.of_nat (List.length (Spec.data spec))) (List.length frame0)
    (map (fun c : cycle => List.length c) (Spec.data spec))
    (sum_list (map (fun c : cycle => List.length c) (Spec.data spec))) spec.

(** A spec that [spinner_compiler] returned. *)
Definition compiled (spec : Spec.t) : Prop :=
  exists gen natural cmds out, spinner_compiler gen natural cmds = (out, inr spec).

(** The error is an [AssertionError] whose message shows the text of every
    frame. *)
Definition carries_dump (e : exn) (data : list cycle) : Prop :=
  exists message,
    e = AssertionError (VStr message) /\
    Forall (Forall (fun f : frame => occurs (join_cells f) message = true)) data.

End Vocabulary.

(** Sample frames. *)
Definition frames_of (texts : list string) : cycle := map Sample.cells_of texts.

Definition matched_frames : list cycle := [frames_of ["[--]"; "[==]"]].

Definition mismatched_frames : list cycle := [frames_of ["[--]"; "[===]"]].

Definition two_by_three : list cycle :=
  [frames_of ["a"; "b"; "c"]; frames_of ["d"; "e"; "f"]].

Definition three_cycles : Spec.t :=
  spec_of [frames_of ["a"]; frames_of ["b"]; frames_of ["c"]].

(** [three_cycles] after [pause] with an edge count of two. *)
Definition three_cycles_paused : Spec.t :=
  spec_of [frames_of ["a"; "a"]; frames_of ["b"; "b"]; frames_of ["c"; "c"]].

(** What the compiler returns on [matched_frames]. *)
Definition compiled_sample : Spec.t :=
  Eval vm_compute in
    match outcome (@spinner_compiler Sample.cell_model Sample.colors matched_frames 4 []) with
    | inr spec => spec
    | inl _ => spec_of []
    end.

(** What the compiler returns on [two_by_three] when [randomize] runs among
    its commands. *)
Definition randomized_sample : Spec.t :=
  Eval vm_compute in
    match outcome (@spinner_compiler Sample.cell_model Sample.colors two_by_three 1
                     [(Crandomize, [VInt 7], ∅)]) with
    | inr spec => spec
    | inl _ => spec_of []
    end.

(** ** The rest of the controller *)

Section Controller.
Context `{CellModel} `{Colors}.

(** The spinner factory a controller wraps, called with the actual length
    and the operational parameters, hands back the cycles it generates or
    raises; [factory_signature] is its signature. Both vary with the
    spinner. *)
Variable spinner_inner_factory : value -> gmap string value -> py (list (list frame)).
Variable factory_signature : list parameter.

(** [compiler_dispatcher]: with [skip_compiler] what the factory makes is
    handed back as it is; otherwise it is compiled with the commands of type
    [True] and the runner is built with the commands of type [False]. *)
Definition compiler_dispatcher (natural : Z) (skip_compiler : bool) (ctl : controller)
    (actual_length : value) : py (list (list frame) + runner) :=
  if skip_compiler then
    let* made := spinner_inner_factory actual_length (op_params ctl) in
    ret (inl made)
  else
    let* gen := spinner_inner_factory actual_length (op_params ctl) in
    let* spec := spinner_compiler gen natural (default [] (extra_commands ctl !! true)) in
    let* r := spinner_runner_factory spec (default [] (extra_commands ctl !! false)) in
    ret (inr r).

(** [set_operational]: the parameters are tried against the factory's
    signature with [None] standing for the actual length, and become the
    operational parameters of a new controller. *)
Definition set_operational (ctl : controller) (params : gmap string value) : py controller :=
  let* _ := sig_bind factory_signature [VNone] params in
  ret (Controller params (extra_commands ctl)).

End Controller.

(** What [inner_controller] starts from: no operational parameter, no
    command. *)
Definition inner_controller : controller := Controller ∅ ∅.

(** ** More vocabulary *)

(** The number of frames of a paused cycle of [len] frames. *)
Definition paused_length (n_edges n_middle len : nat) : nat :=
  match len with
  | 0 => 0
  | 1 => n_edges
  | S (S inner) => n_edges + inner * n_middle + n_edges
  end.

(** The number of frames of the shortest row. *)
Fixpoint shortest {A} (rows : list (list A)) : nat :=
  match rows with
  | [] => 0
  | [row] => List.length row
  | row :: rest => Nat.min (List.length row) (shortest rest)
  end.

(** Not both strings. *)
Definition not_both_strings (old new : value) : Prop :=
  match old, new with
  | VStr _, VStr _ => False
  | _, _ => True
  end.

(** A command that takes its count from the spec's attributes. *)
Definition is_randomize (c : command) : bool :=
  match c with
  | Crandomize => true
  | _ => false
  end.

(** A spinner factory that makes [matched_frames] whatever it is asked, and
    its signature. *)
Definition sample_factory (actual_length : value) (params : gmap string value)
    : py (list (list frame)) :=
  ret matched_frames.

Definition sample_signature : list parameter :=
  [Parameter_ "actual_length" (Some VNone)].

(** [matched_frames], each frame twice. *)
Definition matched_frames_paused : list cycle :=
  [frames_of ["[--]"; "[--]"; "[==]"; "[==]"]].

(** * Properties *)

(** ** The builtins, run on examples *)

Example str_replace_all_occurrences : str_replace "[--]" "-" "=" = "[==]"%string.
Proof. reflexivity. Qed.

Example str_replace_left_to_right : str_replace "aaa" "aa" "b" = "ba"%string.
Proof. reflexivity. Qed.

Example str_replace_empty_old : str_replace "abc" EmptyString "-" = "-a-b-c-"%string.
Proof. reflexivity. Qed.

Example hex_digits_of_255_and_0 : hex_digits 255 = "ff"%string /\ hex_digits 0 = "0"%string.
Proof. split; reflexivity. Qed.

Example iter_islice_four_by_three : iter_islice 3 [1; 2; 3; 4] = [[1; 2; 3]; [4]].
Proof. reflexivity. Qed.

Example zip_star_stops_at_shortest : zip_star [[1; 2; 3]; [4; 5]] = [[1; 4]; [2; 5]].
Proof. reflexivity. Qed.

(** ** Laws of the computations *)

Lemma bind_ret_l {A B} (a : A) (k : A -> py B) : Py.bind (ret a) k = k a.
Proof. unfold Py.bind, ret. by destruct (k a). Qed.

Lemma bind_inr {A B} (m : py A) (k : A -> py B) out b :
  Py.bind m k = (out, inr b) ->
  exists out1 a out2, m = (out1, inr a) /\ k a = (out2, inr b) /\ out = out1 ++ out2.
Proof.
  destruct m as [out1 [e|a]]; simpl; [done|].
  destruct (k a) as [out2 r] eqn:Hk. intros [= <- ->]. eauto 6.
Qed.

Lemma for_each_ret {A B} (f : A -> py B) (g : A -> B) (l : list A) :
  (forall a, a ∈ l -> f a = ret (g a)) -> for_each f l = ret (map g l).
Proof.
  induction l as [|a l IH]; intros Hf; simpl; [done|].
  rewrite Hf by left. rewrite bind_ret_l.
  rewrite IH by (intros; apply Hf; by right).
  by rewrite bind_ret_l.
Qed.

Lemma map_fmap {A B} (f : A -> B) (l : list A) : map f l = f <$> l.
Proof. induction l as [|a l IH]; [done|]. simpl. by rewrite IH. Qed.

Lemma silent_ret {A} (a : A) : silent (ret a).
Proof. done. Qed.

Lemma silent_raise {A} e : silent (@raise A e).
Proof. done. Qed.

Lemma silent_bind {A B} (m : py A) (k : A -> py B) :
  silent m -> (forall a, silent (k a)) -> silent (Py.bind m k).
Proof.
  unfold silent, stdout. destruct m as [out [e|a]]; simpl; [done|].
  intros -> Hk. specialize (Hk a). by destruct (k a).
Qed.

Lemma silent_for_each {A B} (f : A -> py B) l :
  (forall a, silent (f a)) -> silent (for_each f l).
Proof.
  intros Hf. induction l as [|a l IH]; [done|]. simpl.
  apply silent_bind; [done|]. intros b. by apply silent_bind.
Qed.

Lemma silent_inr {A} (m : py A) a : silent m -> outcome m = inr a -> m = ret a.
Proof. destruct m as [out r]. unfold silent, stdout, outcome. simpl. by intros -> ->. Qed.

Lemma silent_inl {A} (m : py A) e : silent m -> outcome m = inl e -> m = raise e.
Proof. destruct m as [out r]. unfold silent, stdout, outcome. simpl. by intros -> ->. Qed.

Lemma silent_max_int k v : silent (max_int k v).
Proof. by destruct v. Qed.

Lemma silent_get_cycles spec : silent (get_cycles spec).
Proof. unfold get_cycles. by destruct (Spec.cycles spec). Qed.

Lemma silent_str_replace_method s old new : silent (str_replace_method s old new).
Proof. by destruct old, new. Qed.

Lemma silent_bind_positional params args kwargs arguments :
  silent (bind_positional params args kwargs arguments).
Proof.
  revert params arguments.
  induction args as [|a args IH]; intros [|p params] arguments; simpl; try done.
  destruct (kwargs !! p_name p); [done|]. apply IH.
Qed.

Lemma silent_bind_keywords params kwargs arguments :
  silent (bind_keywords params kwargs arguments).
Proof.
  revert kwargs arguments.
  induction params as [|p params IH]; intros kwargs arguments; simpl; [done|].
  destruct (kwargs !! p_name p); [apply IH|]. destruct (p_default p); [apply IH|done].
Qed.

Lemma silent_sig_bind params args kwargs : silent (sig_bind params args kwargs).
Proof.
  unfold sig_bind. apply silent_bind; [apply silent_bind_positional|]. intros pa.
  apply silent_bind; [apply silent_bind_keywords|]. intros ka. by case_decide.
Qed.

Create HintDb silent.
#[export] Hint Resolve silent_ret silent_raise silent_bind silent_for_each
  silent_max_int silent_get_cycles silent_str_replace_method silent_sig_bind : silent.

(** [max(k, n or default)] for an integer or omitted [n]. *)
Lemma max_int_or_default k default (n : option Z) :
  max_int k (or_ (arg_of n) (VInt default)) =
  ret (Z.max k (match n with
                | Some z => if (z =? 0)%Z then default else z
                | None => default
                end)).
Proof.
  destruct n as [z|]; simpl; [|done].
  unfold or_. simpl. by destruct (z =? 0)%Z.
Qed.

(** ** replace *)

Section Replace.
Context `{CellModel}.

Lemma replace_strings spec (old new : string) :
  replace spec (VStr old) (VStr new) =
  ret (Spec.set_data
         (map (map (fun f => to_cells (str_replace (join_cells f) old new)))
              (Spec.data spec))
         spec).
Proof.
  unfold replace.
  rewrite (for_each_ret _ (map (fun f => to_cells (str_replace (join_cells f) old new)))).
  - by rewrite bind_ret_l.
  - intros c _. apply for_each_ret. intros f _.
    unfold str_replace_method. by rewrite bind_ret_l.
Qed.

(** C10. For all frame data and all strings [old] and [new], [replace]
    returns, keeps the number of cycles and the number of frames of each
    cycle, and leaves every other attribute alone; the frame at a given place
    becomes the cells of its text with [old] replaced by [new]. *)
Theorem replace_preserves_shape (spec : Spec.t) (old new : string) :
  exists spec',
    replace spec (VStr old) (VStr new) = ret spec' /\
    List.length (Spec.data spec') = List.length (Spec.data spec) /\
    map (fun c : cycle => List.length c) (Spec.data spec') =
      map (fun c : cycle => List.length c) (Spec.data spec) /\
    (forall i j (f : frame),
        Spec.data spec !! i ≫= (.!! j) = Some f ->
        Spec.data spec' !! i ≫= (.!! j) =
          Some (to_cells (str_replace (join_cells f) old new))) /\
    spec' = Spec.set_data (Spec.data spec') spec.
Proof.
  eexists. split; [apply replace_strings|]. simpl.
  repeat split.
  - by rewrite length_map.
  - rewrite map_map. apply map_ext. intros c. by rewrite length_map.
  - intros i j f Hf. rewrite map_fmap, list_lookup_fmap.
    destruct (Spec.data spec !! i) as [c|]; simpl in *; [|done].
    by rewrite map_fmap, list_lookup_fmap, Hf.
Qed.

End Replace.

(** ** pause *)

Lemma edge_test (i n : nat) :
  ((Z.of_nat i =? 0)%Z || (Z.of_nat i =? Z.of_nat n - 1)%Z) =
  (Nat.eqb i 0 || Nat.eqb (S i) n).
Proof.
  destruct (Nat.eqb_spec i 0) as [->|Hi0]; [done|].
  replace (Z.of_nat i =? 0)%Z with false by (symmetry; apply Z.eqb_neq; lia).
  rewrite !orb_false_l.
  destruct (Nat.eqb_spec (S i) n); [apply Z.eqb_eq | apply Z.eqb_neq]; lia.
Qed.

(** The enumeration of [pause] over one cycle, by the shape of the cycle. *)
Lemma pause_cycle (E M : Z) (c : cycle) :
  concat (imap (fun i f =>
                  replicate
                    (Z.to_nat
                       (if (Z.of_nat i =? 0)%Z
                           || (Z.of_nat i =? Z.of_nat (List.length c) - 1)%Z
                        then E else M)) f) c)
  = paused_cycle (Z.to_nat E) (Z.to_nat M) c.
Proof.
  erewrite imap_ext; [|intros i f _; rewrite edge_test; reflexivity].
  destruct c as [|first rest]; [done|].
  destruct rest as [|second rest'].
  { simpl. apply app_nil_r. }
  assert (Hne : second :: rest' <> []) by done.
  destruct (exists_last Hne) as (mid & lst & Hrest).
  unfold paused_cycle. rewrite Hrest.
  rewrite removelast_last, last_last.
  rewrite imap_cons. simpl concat. f_equal.
  rewrite imap_app, concat_app. f_equal.
  - rewrite flat_map_concat_map. f_equal.
    rewrite map_fmap, <- imap_const. apply imap_ext. intros i f Hi.
    apply lookup_lt_Some in Hi. cbn beta. unfold compose.
    rewrite length_app.
    match goal with |- context [if ?b then _ else _] =>
      replace b with false
        by (symmetry; apply orb_false_intro; apply Nat.eqb_neq; simpl; lia) end.
    done.
  - cbn [imap concat]. unfold compose. rewrite length_app.
    match goal with |- context [if ?b then _ else _] =>
      replace b with true
        by (symmetry; apply orb_true_intro; right; apply Nat.eqb_eq; simpl; lia) end.
    apply app_nil_r.
Qed.

(** A count that fits an [ssize_t] is accepted. *)
Lemma repeat_in_range {A} (x : A) (n : Z) :
  (- maxsize - 1 <= n <= maxsize)%Z -> Py.repeat x n = ret (replicate (Z.to_nat n) x).
Proof.
  intros Hn. unfold Py.repeat.
  replace (n <? - maxsize - 1)%Z with false by (symmetry; apply Z.ltb_ge; lia).
  by replace (maxsize <? n)%Z with false by (symmetry; apply Z.ltb_ge; lia).
Qed.

Lemma repeat_beyond_maxsize {A} (x : A) (n : Z) :
  (maxsize < n)%Z -> Py.repeat x n = raise OverflowError.
Proof.
  intros Hn. unfold Py.repeat.
  replace (maxsize <? n)%Z with true by (symmetry; apply Z.ltb_lt; lia).
  by rewrite orb_true_r.
Qed.

(** [pause] on counts that [repeat] accepts. *)
Lemma pause_in_range (spec : Spec.t) (n_edges n_middle : option Z) :
  (effective 6 n_edges <= maxsize)%Z -> (effective 1 n_middle <= maxsize)%Z ->
  pause spec (arg_of n_edges) (arg_of n_middle) =
  ret (Spec.set_data
         (map (paused_cycle (Z.to_nat (effective 6 n_edges))
                            (Z.to_nat (effective 1 n_middle)))
              (Spec.data spec)) spec).
Proof.
  intros He Hm. unfold pause. rewrite !max_int_or_default, !bind_ret_l.
  fold (effective 6 n_edges). fold (effective 1 n_middle).
  assert (He1 : (1 <= effective 6 n_edges)%Z) by (unfold effective; lia).
  assert (Hm1 : (1 <= effective 1 n_middle)%Z) by (unfold effective; lia).
  assert (Hmax : (0 < maxsize)%Z) by done.
  rewrite (for_each_ret _ (paused_cycle (Z.to_nat (effective 6 n_edges))
                                        (Z.to_nat (effective 1 n_middle)))).
  { by rewrite bind_ret_l. }
  intros c _. cbn zeta.
  rewrite (for_each_ret _
             (fun p : nat * frame =>
                replicate
                  (Z.to_nat
                     (if (Z.of_nat p.1 =? 0)%Z
                         || (Z.of_nat p.1 =? Z.of_nat (List.length c) - 1)%Z
                      then effective 6 n_edges else effective 1 n_middle)) p.2)).
  - rewrite bind_ret_l. f_equal. rewrite map_fmap, fmap_imap.
    rewrite <- (pause_cycle (effective 6 n_edges) (effective 1 n_middle) c). done.
  - intros [i f] _. cbn [fst snd]. apply repeat_in_range.
    destruct (_ || _); lia.
Qed.

Section Pause.
Context `{CellModel}.

(** C5, as amended. For all frame data and all arguments, each omitted or
    an integer of at most [sys.maxsize], [pause] returns; its edge count is
    the argument floored at one, or 6 when the argument is omitted or zero,
    its middle count the argument floored at one, or 1 when omitted or zero;
    every cycle becomes its first and last frames repeated the edge count
    and the frames between them repeated the middle count, in order, a lone
    frame being repeated the edge count. *)
Theorem pause_repeats_edges_and_middle (spec : Spec.t) (n_edges n_middle : option Z) :
  (forall z, n_edges = Some z -> (z <= maxsize)%Z) ->
  (forall z, n_middle = Some z -> (z <= maxsize)%Z) ->
  let e := effective 6 n_edges in
  let m := effective 1 n_middle in
  (1 <= e <= maxsize)%Z /\ (1 <= m <= maxsize)%Z /\
  pause spec (arg_of n_edges) (arg_of n_middle) =
  ret (Spec.set_data
         (map (paused_cycle (Z.to_nat e) (Z.to_nat m)) (Spec.data spec)) spec).
Proof.
  intros He Hm e m.
  assert (Hmax : (6 <= maxsize)%Z) by done.
  assert (He' : (1 <= e <= maxsize)%Z).
  { unfold e, effective. destruct n_edges as [z|]; [|lia].
    specialize (He z eq_refl). destruct (z =? 0)%Z; lia. }
  assert (Hm' : (1 <= m <= maxsize)%Z).
  { unfold m, effective. destruct n_middle as [z|]; [|lia].
    specialize (Hm z eq_refl). destruct (z =? 0)%Z; lia. }
  split; [exact He'|]. split; [exact Hm'|]. apply pause_in_range; lia.
Qed.

End Pause.

(** ** reshape *)

Lemma iter_islice_unfold {A} (n : nat) (l : list A) :
  iter_islice n l =
  match take n l with
  | [] => []
  | g => g :: iter_islice n (drop n l)
  end.
Proof.
  funelim (iter_islice n l).
  - by rewrite e.
  - by rewrite Heq.
Qed.

Lemma iter_islice_nil {A} (n : nat) : iter_islice n (@nil A) = [].
Proof. rewrite iter_islice_unfold. by rewrite take_nil. Qed.

Lemma iter_islice_zero {A} (l : list A) : iter_islice 0 l = [].
Proof. by rewrite iter_islice_unfold. Qed.

Lemma iter_islice_cons {A} (n : nat) (l : list A) :
  0 < n -> l <> [] -> iter_islice n l = take n l :: iter_islice n (drop n l).
Proof.
  intros Hn Hl. rewrite iter_islice_unfold at 1.
  destruct n; [lia|]. by destruct l.
Qed.

(** Induction along the reads of [iter_islice]. *)
Lemma iter_islice_ind {A} (n : nat) (Hn : 0 < n) (P : list A -> Prop) :
  P [] ->
  (forall l, l <> [] -> P (drop n l) -> P l) ->
  forall l, P l.
Proof.
  intros Hnil Hstep l.
  induction l as [l IH] using (induction_ltof1 _ (@List.length A)).
  destruct l as [|a l']; [done|].
  apply Hstep; [done|]. apply IH. unfold ltof.
  rewrite length_drop. simpl. lia.
Qed.

Lemma iter_islice_concat {A} (n : nat) (l : list A) :
  0 < n -> concat (iter_islice n l) = l.
Proof.
  intros Hn. induction l as [|l Hl IH] using (iter_islice_ind n Hn).
  - by rewrite iter_islice_nil.
  - rewrite iter_islice_cons by done. simpl. rewrite IH. apply take_drop.
Qed.

Lemma iter_islice_lookup {A} (n : nat) (l : list A) (i : nat) (g : list A) :
  0 < n -> iter_islice n l !! i = Some g ->
  g = take n (drop (i * n) l) /\ g <> [].
Proof.
  intros Hn. revert i.
  induction l as [|l Hl IH] using (iter_islice_ind n Hn); intros i.
  - by rewrite iter_islice_nil.
  - rewrite iter_islice_cons by done. destruct i as [|i]; simpl.
    + intros [= <-]. split; [done|]. destruct n; [lia|]. by destruct l.
    + intros Hg. apply IH in Hg as [-> Hg]. split; [|done].
      by rewrite drop_drop, (Nat.add_comm n).
Qed.

Lemma iter_islice_full_groups {A} (n : nat) (l : list A) (i : nat) (g : list A) :
  0 < n -> iter_islice n l !! i = Some g -> S i < List.length (iter_islice n l) ->
  List.length g = n.
Proof.
  intros Hn Hg Hi.
  destruct (lookup_lt_is_Some_2 (iter_islice n l) (S i) Hi) as [g' Hg'].
  apply iter_islice_lookup in Hg as [-> _]; [|done].
  apply iter_islice_lookup in Hg' as [-> Hne]; [|done].
  rewrite length_take, length_drop.
  assert (Hpos : List.length (take n (drop (S i * n) l)) <> 0).
  { intros H0. by apply nil_length_inv in H0. }
  rewrite length_take, length_drop in Hpos. simpl in Hpos. lia.
Qed.

Lemma iter_islice_group_bounds {A} (n : nat) (l : list A) :
  0 < n -> Forall (fun g => 1 <= List.length g <= n) (iter_islice n l).
Proof.
  intros Hn. apply Forall_lookup. intros i g Hg.
  apply iter_islice_lookup in Hg as [-> Hne]; [|done].
  split; [|rewrite length_take; lia].
  destruct (take n (drop (i * n) l)); [done|simpl; lia].
Qed.

Lemma sum_list_length_concat {A} (ls : list (list A)) :
  sum_list (map (fun g : list A => List.length g) ls) = List.length (concat ls).
Proof.
  induction ls as [|g ls IH]; [done|]. simpl. rewrite length_app. lia.
Qed.

Lemma maxsize_pos : (0 < maxsize)%Z.
Proof. done. Qed.

(** [reshape] on a size that [islice] accepts. *)
Lemma reshape_returns (spec : Spec.t) (n : Z) :
  (0 <= n <= maxsize)%Z ->
  reshape spec (VInt n) =
  ret (Spec.set_data (iter_islice (Z.to_nat n) (concat (Spec.data spec))) spec).
Proof.
  intros Hn. unfold reshape.
  replace (n <? 0)%Z with false by (symmetry; apply Z.ltb_ge; lia).
  by replace (maxsize <? n)%Z with false by (symmetry; apply Z.ltb_ge; lia).
Qed.

Section Reshape.
Context `{CellModel}.

(** C4, as amended. For all frame data and every positive [num_frames] of
    at most [sys.maxsize], [reshape] returns; the new cycles, put end to
    end, are the old frames in their cycle-then-frame order; the cycle at
    place [i] is the run of at most [num_frames] frames that starts
    [i * num_frames] frames in, it is never empty, and every cycle but the
    last has exactly [num_frames] frames; the total number of frames is
    unchanged. *)
Theorem reshape_regroups (spec : Spec.t) (num_frames : Z) :
  (0 < num_frames <= maxsize)%Z ->
  exists data',
    reshape spec (VInt num_frames) = ret (Spec.set_data data' spec) /\
    concat data' = concat (Spec.data spec) /\
    (forall i g, data' !! i = Some g ->
       g = take (Z.to_nat num_frames)
             (drop (i * Z.to_nat num_frames) (concat (Spec.data spec))) /\
       1 <= List.length g <= Z.to_nat num_frames /\
       (S i < List.length data' -> List.length g = Z.to_nat num_frames)) /\
    sum_list (map (fun c : cycle => List.length c) data') =
    sum_list (map (fun c : cycle => List.length c) (Spec.data spec)).
Proof.
  intros Hpos. set (n := Z.to_nat num_frames). assert (Hn : 0 < n) by lia.
  exists (iter_islice n (concat (Spec.data spec))).
  split; [apply reshape_returns; lia|]. split; [by apply iter_islice_concat|]. split.
  - intros i g Hg. split; [by eapply iter_islice_lookup|]. split.
    + pose proof (iter_islice_group_bounds n (concat (Spec.data spec)) Hn) as Hall.
      rewrite Forall_lookup in Hall. by apply (Hall i).
    + intros Hi. by eapply iter_islice_full_groups.
  - rewrite !sum_list_length_concat. by rewrite iter_islice_concat.
Qed.

End Reshape.

(** ** transpose *)

Section Zip.
Context {A : Type}.
Implicit Types (rows : list (list A)) (h : list A).

Lemma zip_star_unfold rows :
  zip_star rows =
  match rows with
  | [] => []
  | _ => match mapM head rows with
         | None => []
         | Some round => round :: zip_star (map tail rows)
         end
  end.
Proof.
  destruct rows as [|first rest]; [done|].
  destruct first as [|x first']; [done|]. reflexivity.
Qed.

(** One more row in front puts one more item in front of every round. *)
Lemma zip_star_cons h rows :
  rows <> [] -> zip_star (h :: rows) = zip_with cons h (zip_star rows).
Proof.
  revert rows. induction h as [|x h IH]; intros rows Hne; [done|].
  rewrite zip_star_unfold. cbn [mapM head mbind option_bind].
  rewrite (zip_star_unfold rows).
  destruct rows as [|r0 rows']; [done|].
  destruct (mapM head (r0 :: rows')) as [round|] eqn:Hheads; simpl.
  - f_equal. by apply IH.
  - done.
Qed.

Lemma zip_star_single h : zip_star [h] = map (fun x => [x]) h.
Proof.
  induction h as [|x h IH]; [done|].
  rewrite zip_star_unfold. cbn [mapM head mbind option_bind mret option_ret map tail].
  by rewrite IH.
Qed.

Lemma mapM_head_zip_with_cons h rows :
  List.length h = List.length rows -> mapM head (zip_with cons h rows) = Some h.
Proof.
  revert rows. induction h as [|x h IH]; intros [|r rows] Hlen; try done.
  simpl in *. by rewrite IH by lia.
Qed.

Lemma map_tail_zip_with_cons h rows :
  List.length h = List.length rows -> map tail (zip_with cons h rows) = rows.
Proof.
  revert rows. induction h as [|x h IH]; intros [|r rows] Hlen; try done.
  simpl in *. by rewrite IH by lia.
Qed.

Lemma zip_star_zip_with_cons h rows :
  h <> [] -> List.length h = List.length rows ->
  zip_star (zip_with cons h rows) = h :: zip_star rows.
Proof.
  intros Hne Hlen. rewrite zip_star_unfold.
  rewrite mapM_head_zip_with_cons, map_tail_zip_with_cons by done.
  destruct h; [done|]. by destruct rows.
Qed.

Lemma zip_star_singletons h : h <> [] -> zip_star (map (fun x => [x]) h) = [h].
Proof.
  induction h as [|x h IH]; [done|]. intros _.
  destruct h as [|y h]; [done|].
  change (map (fun x => [x]) (x :: y :: h)) with ([x] :: map (fun x => [x]) (y :: h)).
  rewrite zip_star_cons by done. by rewrite IH.
Qed.

Lemma zip_star_length rows m :
  rows <> [] -> Forall (fun c => List.length c = m) rows ->
  List.length (zip_star rows) = m.
Proof.
  induction rows as [|h rows IH]; [done|]. intros _ Hall.
  apply Forall_cons in Hall as [Hh Hall].
  destruct rows as [|r rows].
  - by rewrite zip_star_single, length_map.
  - rewrite zip_star_cons by done. rewrite length_zip_with, IH by done. lia.
Qed.

Lemma zip_star_involutive rows m :
  0 < m -> Forall (fun c => List.length c = m) rows ->
  zip_star (zip_star rows) = rows.
Proof.
  intros Hm. induction rows as [|h rows IH]; [done|]. intros Hall.
  apply Forall_cons in Hall as [Hh Hall].
  assert (h <> []) by (intros ->; simpl in Hh; lia).
  destruct rows as [|r rows].
  - rewrite zip_star_single. by apply zip_star_singletons.
  - rewrite zip_star_cons by done.
    rewrite zip_star_zip_with_cons; [by rewrite IH|done|].
    by rewrite (zip_star_length _ m).
Qed.

End Zip.

(** C3. For every spec whose cycles all have the same number [m] of
    frames, a cycle being a non-empty sequence of frames, [transpose]
    applied twice returns the spec it started from. *)
Theorem transpose_involutive (spec : Spec.t) (m : nat) :
  Forall (fun c : cycle => c <> []) (Spec.data spec) ->
  Forall (fun c : cycle => List.length c = m) (Spec.data spec) ->
  (let* once := transpose spec in transpose once) = ret spec.
Proof.
  intros Hne Hall. unfold transpose. rewrite bind_ret_l. simpl.
  destruct spec as [data nat rnd cyc len frs tot]. cbn [Spec.data] in *.
  unfold Spec.set_data. cbn [Spec.data Spec.natural Spec.randomize Spec.cycles
                             Spec.length Spec.frames Spec.total_frames].
  destruct data as [|c rest]; [done|].
  rewrite (zip_star_involutive _ m); [done| |done].
  apply Forall_inv in Hne, Hall. destruct c; [done|]. simpl in Hall. lia.
Qed.

(** ** The compiler *)

Lemma foldl_max_bounds (x : nat) (l : list nat) :
  x <= foldl Nat.max x l /\ Forall (fun y => y <= foldl Nat.max x l) l.
Proof.
  revert x. induction l as [|y l IH]; intros x; simpl; [by split|].
  destruct (IH (Nat.max x y)) as [Hx Hl]. split; [lia|].
  constructor; [lia|done].
Qed.

Lemma foldl_min_bounds (x : nat) (l : list nat) :
  foldl Nat.min x l <= x /\ Forall (fun y => foldl Nat.min x l <= y) l.
Proof.
  revert x. induction l as [|y l IH]; intros x; simpl; [by split|].
  destruct (IH (Nat.min x y)) as [Hx Hl]. split; [lia|].
  constructor; [lia|done].
Qed.

Lemma foldl_max_min_const (x : nat) (l : list nat) :
  Forall (fun y => y = x) l -> foldl Nat.max x l = x /\ foldl Nat.min x l = x.
Proof.
  induction 1 as [|y l -> _ IH]; simpl; [done|].
  by rewrite Nat.max_id, Nat.min_id.
Qed.

(** The widest and the narrowest of a run of widths agree exactly when the
    widths are all the same. *)
Lemma widest_is_narrowest (x : nat) (l : list nat) :
  foldl Nat.max x l = foldl Nat.min x l <-> Forall (fun y => y = x) l.
Proof.
  split.
  - intros Heq.
    destruct (foldl_max_bounds x l) as [Hx Hmax].
    destruct (foldl_min_bounds x l) as [Hx' Hmin].
    rewrite Forall_forall in Hmax, Hmin. apply Forall_forall. intros y Hy.
    specialize (Hmax y Hy). specialize (Hmin y Hy). lia.
  - intros Hall. by destruct (foldl_max_min_const x l Hall) as [-> ->].
Qed.

Lemma uniform_widths w data : uniform w data <-> Forall (fun y => y = w) (widths data).
Proof.
  unfold uniform, widths. induction data as [|c data IH]; simpl.
  - split; constructor.
  - by rewrite Forall_cons, Forall_app, IH, map_fmap, Forall_fmap.
Qed.

Section Compile.
Context `{CellModel} `{Colors}.

Lemma silent_repeat {A} (x : A) (n : Z) : silent (Py.repeat x n).
Proof. unfold Py.repeat. by destruct (_ || _). Qed.

Lemma silent_call c spec args kwargs : silent (call c spec args kwargs).
Proof.
  unfold call. apply silent_bind; [auto with silent|]. intros arguments.
  destruct c; unfold replace, pause, reshape, transpose, randomize, sequential.
  - apply silent_bind; [|done]. apply silent_for_each. intros c.
    apply silent_for_each. intros f. apply silent_bind; auto with silent.
  - apply silent_bind; [auto with silent|]. intros e.
    apply silent_bind; [auto with silent|]. intros m.
    apply silent_bind; [|done]. apply silent_for_each. intros c.
    apply silent_bind; [|done]. apply silent_for_each. intros [i f].
    apply silent_repeat.
  - destruct (default VNone (arguments !! "num_frames"%string)); try done.
    by destruct (_ || _).
  - done.
  - apply silent_bind; [auto with silent|]. intros n.
    apply silent_bind; [|done]. destruct (n =? 0)%Z; auto with silent.
  - done.
Qed.

(** The commands print nothing. *)
Lemma silent_apply_extra_commands spec cmds : silent (apply_extra_commands spec cmds).
Proof.
  revert spec. induction cmds as [|[[c args] kwargs] cmds IH]; intros spec; simpl; [done|].
  apply silent_bind; [apply silent_call|]. done.
Qed.

Lemma call_reshape_positional spec (v : value) :
  call Creshape spec [v] ∅ = reshape spec v.
Proof.
  unfold call.
  replace (sig_bind (signature Creshape) [VInt 1; v] ∅)
    with (ret (<["num_frames"%string := v]>
                 (<["spec"%string := VInt 1]> (∅ : gmap string value))))
    by (vm_compute; reflexivity).
  rewrite bind_ret_l. by rewrite lookup_insert_eq.
Qed.

Lemma call_sequential spec : call Csequential spec [] ∅ = ret spec.
Proof.
  unfold call.
  replace (sig_bind (signature Csequential) [VInt 1] ∅)
    with (ret (<["spec"%string := VInt 1]> (∅ : gmap string value)))
    by (vm_compute; reflexivity).
  by rewrite bind_ret_l.
Qed.

Lemma render_cycles_returns lf wf codepoints i whole cycles :
  outcome (render_cycles lf wf codepoints i whole cycles) = inr tt.
Proof.
  revert i whole. induction cycles as [|c cycles IH]; intros i whole; [done|].
  cbn [render_cycles]. specialize (IH (S i) (whole + List.length c)).
  destruct (render_cycles lf wf codepoints (S i) (whole + List.length c) cycles) as [out r].
  simpl in IH. subst r. by destruct (1 <? i).
Qed.

(** Two prints per cycle, but one for the first. *)
Lemma render_cycles_prints lf wf codepoints i whole cycles :
  1 <= i ->
  List.length (stdout (render_cycles lf wf codepoints i whole cycles)) =
  if 1 <? i then 2 * List.length cycles else 2 * List.length cycles - 1.
Proof.
  revert i whole. induction cycles as [|c cycles IH]; intros i whole Hi.
  { by destruct (1 <? i). }
  cbn [render_cycles]. specialize (IH (S i) (whole + List.length c)).
  destruct (render_cycles lf wf codepoints (S i) (whole + List.length c) cycles) as [out r].
  cbn [stdout fst] in IH.
  destruct i as [|[|i]]; [lia| |]; cbn [Nat.ltb Nat.leb] in *.
  - simpl. rewrite IH by lia. lia.
  - simpl. rewrite IH by lia. lia.
Qed.

(** On a spec with its info and at least one cycle, [render_frames] prints
    the heading and the cycles and returns [None]. *)
Lemma render_frames_returns spec frame0 show :
  Spec.data spec <> [] ->
  outcome (render_frames (with_info spec frame0) show) = inr VNone /\
  List.length (stdout (render_frames (with_info spec frame0) show)) =
    2 * List.length (Spec.data spec).
Proof.
  intros Hne. unfold render_frames.
  cbn [with_info Spec.set_info get_frames Spec.frames get_total_frames
       Spec.total_frames Spec.data].
  destruct (Spec.data spec) as [|c0 data] eqn:Hdata; [done|].
  cbn [map]. unfold print. cbn [Py.bind].
  repeat (rewrite bind_ret_l || (progress (cbn [max_of]))).
  match goal with |- context [render_cycles ?lf ?wf ?cp 1 1 ?cs] =>
    pose proof (render_cycles_returns lf wf cp 1 1 cs) as Hout;
    pose proof (render_cycles_prints lf wf cp 1 1 cs (le_n 1)) as Hlen;
    destruct (render_cycles lf wf cp 1 1 cs) as [out r] end.
  cbn [outcome snd stdout fst Nat.ltb Nat.leb] in Hout, Hlen. subst r. simpl.
  split; [done|]. rewrite app_nil_r, Hlen. simpl. lia.
Qed.

(** What [spinner_compiler] comes to, once its commands have run. *)
Lemma spinner_compiler_after_commands gen natural cmds spec' :
  outcome (apply_extra_commands (initial gen natural) cmds) = inr spec' ->
  spinner_compiler gen natural cmds =
  match Spec.data spec' with
  | (frame0 :: _) :: _ =>
      if decide (uniform (List.length frame0) (Spec.data spec'))
      then ret (with_info spec' frame0)
      else (stdout (render_frames (with_info spec' frame0) true),
            inl (AssertionError (VStr different_lengths_message)))
  | _ => raise IndexError
  end.
Proof.
  intros Hcmds. apply silent_inr in Hcmds; [|apply silent_apply_extra_commands].
  unfold spinner_compiler. fold (initial gen natural). rewrite Hcmds, bind_ret_l.
  destruct (Spec.data spec') as [|[|frame0 cycle0] rest] eqn:Hdata; [done|done|].
  unfold getitem.
  change (((frame0 :: cycle0) :: rest) !! 0) with (Some (frame0 :: cycle0)).
  cbv iota. rewrite bind_ret_l.
  change ((frame0 :: cycle0) !! 0) with (Some frame0).
  cbv iota. rewrite bind_ret_l.
  cbn [Spec.data Spec.set_info]. rewrite Hdata.
  cbn [map concat app max_of min_of]. rewrite !bind_ret_l.
  fold (widths rest).
  set (rest_widths := map (fun f : frame => List.length f) cycle0 ++ widths rest).
  assert (Hu : uniform (List.length frame0) ((frame0 :: cycle0) :: rest) <->
               Forall (fun y => y = List.length frame0) rest_widths).
  { rewrite uniform_widths. unfold widths. cbn [map concat app].
    rewrite Forall_cons. fold (widths rest). subst rest_widths. tauto. }
  destruct (Nat.eqb_spec (foldl Nat.max (List.length frame0) rest_widths)
                         (foldl Nat.min (List.length frame0) rest_widths)) as [Heq|Hneq].
  - apply widest_is_narrowest in Heq. rewrite decide_True by by apply Hu.
    unfold with_info. by rewrite Hdata.
  - rewrite decide_False by (rewrite Hu, <- widest_is_narrowest; done).
    assert (Hd : Spec.data spec' <> []) by by rewrite Hdata.
    destruct (render_frames_returns spec' frame0 true Hd) as [Hout _].
    match goal with |- context [render_frames ?s true] =>
      replace s with (with_info spec' frame0)
        by (unfold with_info; rewrite Hdata; reflexivity) end.
    destruct (render_frames (with_info spec' frame0) true) as [out r].
    simpl in Hout. subst r. simpl. by rewrite app_nil_r.
Qed.

Lemma spinner_compiler_commands_fail gen natural cmds e :
  outcome (apply_extra_commands (initial gen natural) cmds) = inl e ->
  spinner_compiler gen natural cmds = raise e.
Proof.
  intros Hcmds. apply silent_inl in Hcmds; [|apply silent_apply_extra_commands].
  unfold spinner_compiler. fold (initial gen natural). by rewrite Hcmds.
Qed.

Lemma spinner_compiler_inv gen natural cmds out spec :
  spinner_compiler gen natural cmds = (out, inr spec) ->
  out = [] /\
  exists spec' frame0 cycle0 rest,
    outcome (apply_extra_commands (initial gen natural) cmds) = inr spec' /\
    Spec.data spec' = (frame0 :: cycle0) :: rest /\
    uniform (List.length frame0) (Spec.data spec') /\
    spec = with_info spec' frame0.
Proof.
  intros Hc.
  destruct (outcome (apply_extra_commands (initial gen natural) cmds))
    as [e|spec'] eqn:Hcmds.
  { by rewrite (spinner_compiler_commands_fail _ _ _ _ Hcmds) in Hc. }
  rewrite (spinner_compiler_after_commands _ _ _ _ Hcmds) in Hc.
  destruct (Spec.data spec') as [|[|frame0 cycle0] rest] eqn:Hdata; [done|done|].
  case_decide as Hu; [|done].
  injection Hc as <- <-. split; [done|]. exists spec', frame0, cycle0, rest.
  by rewrite Hdata.
Qed.

(** What holds of every compiled spec. *)
Lemma compiled_inv spec :
  compiled spec ->
  exists frame0 cycle0 rest,
    Spec.data spec = (frame0 :: cycle0) :: rest /\
    uniform (List.length frame0) (Spec.data spec) /\
    Spec.cycles spec = Some (Z.of_nat (List.length (Spec.data spec))) /\
    Spec.length spec = Some (List.length frame0) /\
    Spec.frames spec = Some (map (fun c : cycle => List.length c) (Spec.data spec)) /\
    Spec.total_frames spec =
      Some (sum_list (map (fun c : cycle => List.length c) (Spec.data spec))).
Proof.
  intros (gen & natural & cmds & out & Hc).
  apply spinner_compiler_inv in Hc
    as (_ & spec' & frame0 & cycle0 & rest & _ & Hdata & Hu & ->).
  by exists frame0, cycle0, rest.
Qed.

(** C1, as amended. A spec that [spinner_compiler] returns has the frame
    data its commands left, untouched, a first frame, that frame's width as
    its [length], and the same width in every frame of every cycle. And when
    the commands leave a first cycle with a frame and two frames of
    different widths, [spinner_compiler] prints the frame dump, two prints
    per cycle, and raises an [AssertionError] whose message is the fixed
    text about different cell lengths. *)
Theorem spinner_compiler_checks_widths gen natural cmds :
  (forall out spec,
      spinner_compiler gen natural cmds = (out, inr spec) ->
      exists spec' frame0 cycle0 rest,
        outcome (apply_extra_commands (initial gen natural) cmds) = inr spec' /\
        Spec.data spec = Spec.data spec' /\
        Spec.data spec = (frame0 :: cycle0) :: rest /\
        Spec.length spec = Some (List.length frame0) /\
        Forall (Forall (fun f : frame => List.length f = List.length frame0))
               (Spec.data spec))
  /\
  (forall spec' frame0 cycle0 rest,
      outcome (apply_extra_commands (initial gen natural) cmds) = inr spec' ->
      Spec.data spec' = (frame0 :: cycle0) :: rest ->
      (exists c1 f1 c2 f2,
          c1 ∈ Spec.data spec' /\ f1 ∈ c1 /\ c2 ∈ Spec.data spec' /\ f2 ∈ c2 /\
          List.length f1 <> List.length f2) ->
      let dump := stdout (render_frames (with_info spec' frame0) true) in
      spinner_compiler gen natural cmds =
        (dump, inl (AssertionError (VStr different_lengths_message))) /\
      List.length dump = 2 * List.length (Spec.data spec')).
Proof.
  split.
  - intros out spec Hc.
    apply spinner_compiler_inv in Hc
      as (_ & spec' & frame0 & cycle0 & rest & Hcmds & Hdata & Hu & ->).
    by exists spec', frame0, cycle0, rest.
  - intros spec' frame0 cycle0 rest Hcmds Hdata
      (c1 & f1 & c2 & f2 & Hc1 & Hf1 & Hc2 & Hf2 & Hdiff) dump.
    rewrite (spinner_compiler_after_commands _ _ _ _ Hcmds), Hdata.
    rewrite decide_False.
    + split; [done|]. rewrite <- Hdata. apply render_frames_returns. by rewrite Hdata.
    + intros Hu. rewrite <- Hdata in Hu. unfold uniform in Hu.
      rewrite Forall_forall in Hu.
      pose proof (Hu c1 Hc1) as H1. pose proof (Hu c2 Hc2) as H2.
      rewrite Forall_forall in H1, H2.
      specialize (H1 f1 Hf1). specialize (H2 f2 Hf2). lia.
Qed.

(** A command that returns on a spec without cycles leaves it without
    cycles. *)
Lemma call_keeps_no_cycles c spec args kwargs spec' :
  Spec.data spec = [] ->
  outcome (call c spec args kwargs) = inr spec' ->
  Spec.data spec' = [].
Proof.
  intros Hdata Hcall.
  apply silent_inr in Hcall; [|apply silent_call].
  unfold call in Hcall.
  pose proof (silent_sig_bind (signature c) (VInt 1 :: args) kwargs) as Hs.
  destruct (sig_bind (signature c) (VInt 1 :: args) kwargs) as [o [e|arguments]]; [done|].
  unfold silent, stdout in Hs. simpl in Hs. subst o.
  change (bind ([], inr arguments) ?k) with (bind (ret arguments) k) in Hcall.
  rewrite bind_ret_l in Hcall.
  destruct c; unfold replace, pause, reshape, transpose, randomize, sequential in Hcall;
    rewrite ?Hdata in Hcall.
  - cbn [for_each] in Hcall. rewrite bind_ret_l in Hcall. by injection Hcall as <-.
  - destruct (max_int 1 (or_ (default VNone (arguments !! "n_edges"%string)) (VInt 6)))
      as [o1 [e1|n1]]; [done|].
    destruct (max_int 1 (or_ (default VNone (arguments !! "n_middle"%string)) (VInt 1)))
      as [o2 [e2|n2]]; [done|].
    simpl in Hcall. by injection Hcall as _ <-.
  - destruct (default VNone (arguments !! "num_frames"%string)) as [|n|];
      [|destruct (_ || _)|];
      try done; injection Hcall as <-; [done|].
    apply iter_islice_nil.
  - by injection Hcall as <-.
  - destruct (max_int 0 (or_ (default VNone (arguments !! "cycles"%string)) (VInt 0)))
      as [o1 [e1|n1]]; [done|].
    cbn [Py.bind] in Hcall.
    destruct (n1 =? 0)%Z; [destruct (get_cycles spec) as [o2 [e2|c2]]|];
      simpl in Hcall; try done; injection Hcall as _ <-; exact Hdata.
  - by injection Hcall as <-.
Qed.

Lemma apply_extra_commands_keeps_no_cycles cmds spec spec' :
  Spec.data spec = [] ->
  outcome (apply_extra_commands spec cmds) = inr spec' ->
  Spec.data spec' = [].
Proof.
  revert spec. induction cmds as [|[[c args] kwargs] cmds IH]; intros spec Hdata.
  { by intros [= <-]. }
  cbn [apply_extra_commands]. intros Happly.
  pose proof (silent_call c spec args kwargs) as Hs.
  destruct (call c spec args kwargs) as [o [e|spec1]] eqn:Hcall; [done|].
  unfold silent, stdout in Hs. simpl in Hs. subst o.
  change (bind ([], inr spec1) ?k) with (bind (ret spec1) k) in Happly.
  rewrite bind_ret_l in Happly.
  apply (IH spec1); [|done].
  apply (call_keeps_no_cycles c spec args kwargs); [done|]. by rewrite Hcall.
Qed.

(** C9. With no cycle from the frame source, [spinner_compiler] raises
    [IndexError] and prints nothing, with no command and with any commands
    that run to their end; so it does whenever its commands leave no cycle
    at all, as [reshape], given a size from [0] to [sys.maxsize], does when
    there is no frame to regroup or when it is asked for groups of zero
    frames. The error is not the [AssertionError] of the width check and no
    frame dump is printed. *)
Theorem spinner_compiler_empty_data :
  (forall natural, spinner_compiler [] natural [] = raise IndexError) /\
  (forall natural cmds spec',
      outcome (apply_extra_commands (initial [] natural) cmds) = inr spec' ->
      spinner_compiler [] natural cmds = raise IndexError) /\
  (forall gen natural cmds spec',
      outcome (apply_extra_commands (initial gen natural) cmds) = inr spec' ->
      Spec.data spec' = [] ->
      spinner_compiler gen natural cmds = raise IndexError) /\
  (forall gen natural (num_frames : Z),
      (0 <= num_frames <= maxsize)%Z ->
      concat gen = [] \/ num_frames = 0%Z ->
      spinner_compiler gen natural [(Creshape, [VInt num_frames], ∅)] = raise IndexError).
Proof.
  assert (Hgen : forall gen natural cmds spec',
             outcome (apply_extra_commands (initial gen natural) cmds) = inr spec' ->
             Spec.data spec' = [] ->
             spinner_compiler gen natural cmds = raise IndexError).
  { intros gen natural cmds spec' Hcmds Hdata.
    by rewrite (spinner_compiler_after_commands _ _ _ _ Hcmds), Hdata. }
  split; [|split; [|split; [done|]]].
  - intros natural. by apply (Hgen [] natural [] (initial [] natural)).
  - intros natural cmds spec' Hcmds. apply (Hgen _ _ _ spec' Hcmds).
    by apply (apply_extra_commands_keeps_no_cycles cmds (initial [] natural)).
  - intros gen natural n Hn Hempty.
    eapply Hgen.
    + cbn [apply_extra_commands]. rewrite call_reshape_positional.
      rewrite reshape_returns by done. rewrite bind_ret_l. reflexivity.
    + cbn [Spec.data Spec.set_data initial]. destruct Hempty as [Hflat| ->].
      * replace (concat (map (fun c => map fix_cells c) gen)) with (@nil frame).
        { apply iter_islice_nil. }
        symmetry. clear -Hflat. induction gen as [|c gen IH]; [done|].
        simpl in *. apply app_eq_nil in Hflat as [-> Hflat]. by rewrite IH.
      * apply iter_islice_zero.
Qed.

(** C6. On every compiled spec and for an integer or omitted argument,
    [randomize] returns a spec with [randomize] set, whose [cycles] is the
    argument when that is positive and the number of cycles of the data
    otherwise, and whose data and other attributes are unchanged. *)
Theorem randomize_sets_policy (spec : Spec.t) (cycles : option Z) :
  compiled spec ->
  exists spec',
    randomize spec (arg_of cycles) = ret spec' /\
    Spec.randomize spec' = true /\
    Spec.cycles spec' =
      Some (match cycles with
            | Some n => if (0 <? n)%Z then n else Z.of_nat (List.length (Spec.data spec))
            | None => Z.of_nat (List.length (Spec.data spec))
            end) /\
    Spec.data spec' = Spec.data spec /\
    Spec.natural spec' = Spec.natural spec /\
    Spec.length spec' = Spec.length spec /\
    Spec.frames spec' = Spec.frames spec /\
    Spec.total_frames spec' = Spec.total_frames spec.
Proof.
  intros Hc. apply compiled_inv in Hc as (frame0 & cycle0 & rest & _ & _ & Hcycles & _).
  set (actual := Z.of_nat (List.length (Spec.data spec))) in *.
  set (c := match cycles with
            | Some n => if (0 <? n)%Z then n else actual
            | None => actual
            end).
  exists (Spec.set_randomize_cycles true c spec). split; [|done].
  unfold randomize. rewrite max_int_or_default, bind_ret_l.
  assert (Hget : get_cycles spec = ret actual) by (unfold get_cycles; by rewrite Hcycles).
  destruct cycles as [n|]; [|simpl; by rewrite Hget].
  subst c. destruct (Z.eqb_spec n 0) as [->|Hn0]; [simpl; by rewrite Hget|].
  destruct (Z.ltb_spec 0 n).
  - rewrite Z.max_r by lia. replace (n =? 0)%Z with false by (symmetry; apply Z.eqb_neq; lia).
    by rewrite bind_ret_l.
  - rewrite Z.max_l by lia. simpl. by rewrite Hget.
Qed.

(** ** The runner *)

Lemma spinner_runner_factory_default spec :
  spinner_runner_factory spec [] =
  ret (Runner spec spec
         (if Spec.randomize spec then random_cycle_data else ordered_cycle_data [])).
Proof.
  unfold spinner_runner_factory. cbn [apply_extra_commands].
  by rewrite call_sequential, !bind_ret_l.
Qed.

(** A runner that the factory returns keeps the generator chosen from the
    flag the spec came in with. *)
Lemma spinner_runner_factory_inv spec cmds out r0 :
  spinner_runner_factory spec cmds = (out, inr r0) ->
  exists spec',
    r0 = Runner spec spec'
           (if Spec.randomize spec then random_cycle_data else ordered_cycle_data []).
Proof.
  unfold spinner_runner_factory. intros Hf.
  apply bind_inr in Hf as (out1 & spec' & out2 & _ & [= _ <-] & _). by exists spec'.
Qed.

(** The ordered generator, [k] cycles into a pass over the data. *)
Lemma ordered_invocations (attrs spec : Spec.t) (n k : nat) (g : rng) :
  Spec.data spec <> [] -> k <= List.length (Spec.data spec) ->
  exists pending,
    invocations n (Runner attrs spec (ordered_cycle_data (drop k (Spec.data spec)))) g =
    Some (map (fun j => nth ((k + j) mod List.length (Spec.data spec)) (Spec.data spec) [])
              (seq 0 n),
          Runner attrs spec (ordered_cycle_data pending), g).
Proof.
  intros Hne.
  assert (Hlen : 0 < List.length (Spec.data spec))
    by (destruct (Spec.data spec); [done|simpl; lia]).
  revert k. induction n as [|n IH]; intros k Hk; [by eexists|].
  cbn [invocations].
  destruct (decide (k = List.length (Spec.data spec))) as [->|Hlt].
  - rewrite drop_all.
    destruct (IH 1) as [pending IH1]; [lia|].
    unfold spinner_runner, next_cycle. cbn [r_spec r_cycle_gen r_attributes].
    destruct (Spec.data spec) as [|c0 pending0] eqn:Hdata; [done|].
    change (drop 1 (c0 :: pending0)) with pending0 in IH1. rewrite IH1.
    eexists. f_equal. f_equal. f_equal. cbn [seq map]. f_equal.
    + by rewrite Nat.add_0_r, Nat.Div0.mod_same.
    + rewrite <- seq_shift, map_map. apply map_ext. intros j. f_equal.
      replace (List.length (c0 :: pending0) + S j)
        with (1 + j + 1 * List.length (c0 :: pending0)) by lia.
      by rewrite Nat.Div0.mod_add.
  - assert (Hk' : k < List.length (Spec.data spec)) by lia.
    destruct (lookup_lt_is_Some_2 (Spec.data spec) k Hk') as [c Hc].
    rewrite (drop_S _ _ _ Hc).
    unfold spinner_runner, next_cycle. cbn [r_spec r_cycle_gen r_attributes].
    destruct (IH (S k)) as [pending IHk]; [lia|]. rewrite IHk.
    eexists. f_equal. f_equal. f_equal. cbn [seq map]. f_equal.
    + rewrite Nat.add_0_r, Nat.mod_small by done.
      symmetry. by apply nth_lookup_Some with (d := []) in Hc.
    + rewrite <- seq_shift, map_map. apply map_ext. intros j. do 2 f_equal. lia.
Qed.

Lemma ordered_runner_wraps (attrs spec : Spec.t) (n : nat) (g : rng) :
  Spec.data spec <> [] ->
  exists r',
    invocations n (Runner attrs spec (ordered_cycle_data [])) g =
    Some (map (fun j => nth (j mod List.length (Spec.data spec)) (Spec.data spec) [])
              (seq 0 n), r', g).
Proof.
  intros Hne.
  destruct (ordered_invocations attrs spec n (List.length (Spec.data spec)) g Hne (le_n _))
    as [pending Hinv].
  rewrite drop_all in Hinv. rewrite Hinv. eexists. do 3 f_equal.
  apply map_ext. intros j.
  replace (List.length (Spec.data spec) + j)
    with (j + 1 * List.length (Spec.data spec)) by lia.
  by rewrite Nat.Div0.mod_add.
Qed.

(** C2. On a spec with [randomize] unset the runner factory, called with no
    command, returns a runner over that spec. And for every runner the
    factory returns on such a spec, whatever its commands, as long as the
    runner's spec has at least one cycle: [n] calls of the runner in a row,
    each walked to its end, yield the cycles at places [0 mod count],
    [1 mod count], ..., each with its frames in order, and do not touch the
    random source; with three cycles, four calls yield the first, the
    second, the third and the first again. *)
Theorem sequential_runner_wraps (spec : Spec.t) :
  Spec.randomize spec = false ->
  (exists r0, spinner_runner_factory spec [] = ret r0 /\ r_spec r0 = spec) /\
  (forall cmds out r0,
      spinner_runner_factory spec cmds = (out, inr r0) ->
      Spec.data (r_spec r0) <> [] ->
      (forall n g, exists r',
          invocations n r0 g =
          Some (map (fun j => nth (j mod List.length (Spec.data (r_spec r0)))
                                  (Spec.data (r_spec r0)) [])
                    (seq 0 n), r', g)) /\
      (forall c0 c1 c2 g,
          Spec.data (r_spec r0) = [c0; c1; c2] ->
          exists r', invocations 4 r0 g = Some ([c0; c1; c2; c0], r', g))).
Proof.
  intros Hseq. split.
  { eexists. split; [apply spinner_runner_factory_default|done]. }
  intros cmds out r0 Hf Hne.
  apply spinner_runner_factory_inv in Hf as [spec' ->]. rewrite Hseq in *.
  cbn [r_spec] in *.
  split; [intros n g; by apply ordered_runner_wraps|].
  intros c0 c1 c2 g Hdata.
  destruct (ordered_runner_wraps spec spec' 4 g Hne) as [r' Hinv].
  exists r'. rewrite Hinv, Hdata. reflexivity.
Qed.

Lemma random_invocations (attrs spec : Spec.t) (n : nat) (g : rng) :
  Spec.data spec <> [] ->
  invocations n (Runner attrs spec random_cycle_data) g =
  Some (map (fun j => nth (tape g (pos g + j) mod List.length (Spec.data spec))
                          (Spec.data spec) [])
            (seq 0 n),
        Runner attrs spec random_cycle_data, Rng (tape g) (pos g + n)).
Proof.
  intros Hne. revert g. induction n as [|n IH]; intros g.
  { cbn. rewrite Nat.add_0_r. by destruct g. }
  cbn [invocations]. unfold spinner_runner, next_cycle, choice.
  cbn [r_spec r_cycle_gen r_attributes].
  destruct (Spec.data spec) as [|c0 rest] eqn:Hdata; [done|].
  rewrite IH. cbn [tape pos seq map]. f_equal. f_equal; [f_equal|f_equal; lia].
  rewrite Nat.add_0_r. f_equal.
  - apply nth_indep. by apply Nat.mod_upper_bound.
  - rewrite <- seq_shift, map_map. apply map_ext. intros j. do 3 f_equal. lia.
Qed.

Lemma map_seq_nth {B} (f : nat -> B) (picks : list nat) :
  map (fun j => f (nth j picks 0)) (seq 0 (List.length picks)) = map f picks.
Proof.
  induction picks as [|p picks IH]; [done|].
  cbn [List.length seq map nth]. f_equal.
  rewrite <- seq_shift, map_map. exact IH.
Qed.

(** C7. On a spec with [randomize] set the runner factory, called with no
    command, returns a runner over that spec. And for every runner the
    factory returns on such a spec, whatever its commands, as long as the
    runner's spec has at least one cycle: [n] calls of the runner in a row
    yield [n] cycles of that spec, the one of call [j] at the place given by
    draw [j] of the random source alone, a place below the number of
    cycles; and whatever places below that number are asked for, repeats
    included, some random source makes the runner yield exactly those. *)
Theorem randomized_runner_selects (spec : Spec.t) :
  Spec.randomize spec = true ->
  (exists r0, spinner_runner_factory spec [] = ret r0 /\ r_spec r0 = spec) /\
  (forall cmds out r0,
      spinner_runner_factory spec cmds = (out, inr r0) ->
      Spec.data (r_spec r0) <> [] ->
      let data := Spec.data (r_spec r0) in
      let count := List.length data in
      (forall n g, exists chosen r' g',
          invocations n r0 g = Some (map (fun i => nth i data []) chosen, r', g') /\
          chosen = map (fun j => tape g (pos g + j) mod count) (seq 0 n) /\
          Forall (fun i => i < count) chosen) /\
      (forall picks, Forall (fun i => i < count) picks ->
          exists g r' g',
            invocations (List.length picks) r0 g =
            Some (map (fun i => nth i data []) picks, r', g'))).
Proof.
  intros Hrand. split.
  { eexists. split; [apply spinner_runner_factory_default|done]. }
  intros cmds out r0 Hf Hne data count.
  apply spinner_runner_factory_inv in Hf as [spec' ->]. rewrite Hrand in *.
  subst data count. cbn [r_spec] in *.
  assert (Hcount : 0 < List.length (Spec.data spec'))
    by (destruct (Spec.data spec'); [done|simpl; lia]).
  split.
  - intros n g. eexists _, _, _. split; [|split; [reflexivity|]].
    + rewrite random_invocations by done. by rewrite map_map.
    + apply Forall_forall. intros i Hi.
      apply list_elem_of_In, in_map_iff in Hi as (j & <- & _).
      apply Nat.mod_upper_bound. lia.
  - intros picks Hpicks.
    exists (Rng (fun i => nth i picks 0) 0). eexists _, _.
    rewrite random_invocations by done. do 3 f_equal. cbn [tape pos].
    clear -Hpicks Hcount.
    rewrite <- (map_seq_nth (fun i => nth i (Spec.data spec') []) picks).
    apply map_ext_in. intros j Hj. apply in_seq in Hj. f_equal.
    apply Nat.mod_small. rewrite Forall_forall in Hpicks.
    apply Hpicks, list_elem_of_In, nth_In. lia.
Qed.

End Compile.

(** ** The controller *)

(** Whether the positional phase succeeds, and with which parameters left,
    does not depend on the arguments bound so far. *)
Lemma bind_positional_arguments params args kwargs a1 a2 :
  match bind_positional params args kwargs a1, bind_positional params args kwargs a2 with
  | (_, inl e1), (_, inl e2) => e1 = TypeError /\ e2 = TypeError
  | (_, inr x1), (_, inr x2) => fst x1 = fst x2
  | _, _ => False
  end.
Proof.
  revert params a1 a2.
  induction args as [|v args IH]; intros [|p params] a1 a2; simpl; try done.
  destruct (kwargs !! p_name p); [done|]. apply IH.
Qed.

Lemma bind_keywords_arguments params kwargs a1 a2 :
  match bind_keywords params kwargs a1, bind_keywords params kwargs a2 with
  | (_, inl e1), (_, inl e2) => e1 = TypeError /\ e2 = TypeError
  | (_, inr x1), (_, inr x2) => fst x1 = fst x2
  | _, _ => False
  end.
Proof.
  revert kwargs a1 a2.
  induction params as [|p params IH]; intros kwargs a1 a2; simpl; [done|].
  destruct (kwargs !! p_name p); [apply IH|]. destruct (p_default p); [apply IH|done].
Qed.

Lemma bind_positional_suffix params args kwargs a out rest a' :
  bind_positional params args kwargs a = (out, inr (rest, a')) ->
  exists bound, params = bound ++ rest.
Proof.
  revert params a. induction args as [|v args IH]; intros [|p params] a; simpl; try done.
  - intros [= _ <- _]. by exists [].
  - intros [= _ <- _]. by exists [].
  - destruct (kwargs !! p_name p); [done|]. intros Hb.
    apply IH in Hb as [bound ->]. by exists (p :: bound).
Qed.

(** A keyword that names no parameter is still there after the keyword
    phase. *)
Lemma bind_keywords_leftover params kwargs a out left a' k :
  bind_keywords params kwargs a = (out, inr (left, a')) ->
  k ∉ map p_name params -> left !! k = kwargs !! k.
Proof.
  revert kwargs a. induction params as [|p params IH]; intros kwargs a; simpl.
  - by intros [= _ <- _].
  - intros Hb Hk. apply not_elem_of_cons in Hk as [Hkp Hk].
    destruct (kwargs !! p_name p).
    + rewrite (IH _ _ Hb Hk). by apply lookup_delete_ne.
    + destruct (p_default p); [|done]. by apply (IH _ _ Hb Hk).
Qed.

(** A binding that fails raises [TypeError]. *)
Lemma sig_bind_raises params args kwargs e :
  outcome (sig_bind params args kwargs) = inl e ->
  sig_bind params args kwargs = raise TypeError.
Proof.
  intros He. rewrite (silent_inl _ _ (silent_sig_bind _ _ _) He). f_equal.
  unfold sig_bind in He.
  pose proof (bind_positional_arguments params args kwargs ∅ ∅) as Hp.
  pose proof (silent_bind_positional params args kwargs ∅) as Hsp.
  destruct (bind_positional params args kwargs ∅) as [o1 [e1|[rest a1]]].
  { simpl in He. destruct Hp as [-> _]. by injection He as <-. }
  unfold silent, stdout in Hsp. simpl in Hsp. subst o1.
  change (bind ([], inr (rest, a1)) ?k) with (bind (ret (rest, a1)) k) in He.
  rewrite bind_ret_l in He. cbn [fst snd] in He.
  pose proof (bind_keywords_arguments rest kwargs a1 a1) as Hk.
  pose proof (silent_bind_keywords rest kwargs a1) as Hsk.
  destruct (bind_keywords rest kwargs a1) as [o2 [e2|[left a2]]].
  { simpl in He. destruct Hk as [-> _]. by injection He as <-. }
  unfold silent, stdout in Hsk. simpl in Hsk. subst o2.
  change (bind ([], inr (left, a2)) ?k) with (bind (ret (left, a2)) k) in He.
  rewrite bind_ret_l in He. cbn [fst snd] in He.
  case_decide; simpl in He; [done|]. by injection He as <-.
Qed.

(** Holding the spec's place with a value is the same as binding against
    the signature without its leading parameter. *)
Lemma sig_bind_spec_slot (params : list parameter) args kwargs (v : value) :
  "spec"%string ∉ map p_name params ->
  (exists arguments,
      sig_bind (Parameter_ "spec" None :: params) (v :: args) kwargs = ret arguments)
  <-> accepts params args kwargs.
Proof.
  intros Hspec. unfold accepts, sig_bind. cbn [bind_positional p_name].
  destruct (kwargs !! "spec"%string) as [w|] eqn:Hkw.
  - split; [intros [? ?]; done|]. intros [arguments Hb]. exfalso.
    pose proof (silent_bind_positional params args kwargs ∅) as Hsp.
    destruct (bind_positional params args kwargs ∅) as [o1 [e1|[rest a1]]] eqn:Hp; [done|].
    unfold silent, stdout in Hsp. simpl in Hsp. subst o1.
    change (bind ([], inr (rest, a1)) ?k) with (bind (ret (rest, a1)) k) in Hb.
    rewrite bind_ret_l in Hb. cbn [fst snd] in Hb.
    apply bind_positional_suffix in Hp as [bound ->].
    pose proof (silent_bind_keywords rest kwargs a1) as Hsk.
    destruct (bind_keywords rest kwargs a1) as [o2 [e2|[left a2]]] eqn:Hk; [done|].
    unfold silent, stdout in Hsk. simpl in Hsk. subst o2.
    change (bind ([], inr (left, a2)) ?k) with (bind (ret (left, a2)) k) in Hb.
    rewrite bind_ret_l in Hb. cbn [fst snd] in Hb.
    case_decide as Hempty; [|done].
    assert (Hl : left !! "spec"%string = Some w).
    { rewrite <- Hkw. eapply bind_keywords_leftover; [exact Hk|].
      intros Hin. apply Hspec. rewrite map_app. apply elem_of_app. by right. }
    by rewrite Hempty in Hl.
  - pose proof (bind_positional_arguments params args kwargs
                  (<["spec"%string := v]> ∅) ∅) as Hp.
    pose proof (silent_bind_positional params args kwargs (<["spec"%string := v]> ∅)) as Hs1.
    pose proof (silent_bind_positional params args kwargs ∅) as Hs2.
    destruct (bind_positional params args kwargs (<["spec"%string := v]> ∅))
               as [o1 [e1|[rest1 a1]]],
             (bind_positional params args kwargs ∅) as [o2 [e2|[rest2 a2]]]; try done.
    { split; intros [? ?]; done. }
    unfold silent, stdout in Hs1, Hs2. simpl in Hs1, Hs2, Hp. subst o1 o2 rest2.
    change (bind ([], inr (rest1, a1)) ?k) with (bind (ret (rest1, a1)) k).
    change (bind ([], inr (rest1, a2)) ?k) with (bind (ret (rest1, a2)) k).
    rewrite !bind_ret_l. cbn [fst snd].
    pose proof (bind_keywords_arguments rest1 kwargs a1 a2) as Hk.
    pose proof (silent_bind_keywords rest1 kwargs a1) as Hs1.
    pose proof (silent_bind_keywords rest1 kwargs a2) as Hs2.
    destruct (bind_keywords rest1 kwargs a1) as [o1 [e1|[left1 b1]]],
             (bind_keywords rest1 kwargs a2) as [o2 [e2|[left2 b2]]]; try done.
    { split; intros [? ?]; done. }
    unfold silent, stdout in Hs1, Hs2. simpl in Hs1, Hs2, Hk. subst o1 o2 left2.
    change (bind ([], inr (left1, b1)) ?k) with (bind (ret (left1, b1)) k).
    change (bind ([], inr (left1, b2)) ?k) with (bind (ret (left1, b2)) k).
    rewrite !bind_ret_l. cbn [fst snd].
    case_decide; split; intros [? ?]; try done; by eexists.
Qed.

Lemma bind_positional_too_many params args kwargs a :
  List.length params < List.length args ->
  bind_positional params args kwargs a = raise TypeError.
Proof.
  revert params a. induction args as [|v args IH]; intros [|p params] a; simpl;
    try lia; try done.
  intros Hlen. destruct (kwargs !! p_name p); [done|]. apply IH. lia.
Qed.

Lemma bind_positional_rest params args kwargs a out rest a' :
  bind_positional params args kwargs a = (out, inr (rest, a')) ->
  rest = drop (List.length args) params.
Proof.
  revert params a. induction args as [|v args IH]; intros [|p params] a; simpl; try done.
  - by intros [= _ <- _].
  - by intros [= _ <- _].
  - destruct (kwargs !! p_name p); [done|]. apply IH.
Qed.

Lemma bind_keywords_missing params kwargs a p :
  p ∈ params -> p_default p = None -> kwargs !! p_name p = None ->
  bind_keywords params kwargs a = raise TypeError.
Proof.
  revert kwargs a. induction params as [|q params IH]; intros kwargs a Hin Hdef Hkw.
  { by apply elem_of_nil in Hin. }
  simpl. apply elem_of_cons in Hin as [<-|Hin].
  - by rewrite Hkw, Hdef.
  - destruct (kwargs !! p_name q) eqn:Hq.
    + apply IH; [done|done|]. rewrite lookup_delete_None. by right.
    + destruct (p_default q); [by apply IH|done].
Qed.

(** Positional arguments are bound when there is a parameter for each and
    no keyword names one of these parameters. *)
Lemma bind_positional_returns params args kwargs a :
  List.length args <= List.length params ->
  (forall p, p ∈ take (List.length args) params -> kwargs !! p_name p = None) ->
  exists a', bind_positional params args kwargs a =
             ret (drop (List.length args) params, a').
Proof.
  revert params a. induction args as [|v args IH]; intros params a Hlen Hfree.
  { exists a. by destruct params. }
  destruct params as [|p params]; [simpl in Hlen; lia|]. simpl.
  rewrite (Hfree p) by (simpl; left).
  apply IH; [simpl in Hlen; lia|]. intros q Hq. apply Hfree. simpl. by right.
Qed.

(** The parameters left are bound when the required ones have their
    keyword; the keywords that name none of them are left over. *)
Lemma bind_keywords_returns params kwargs a :
  NoDup (map p_name params) ->
  (forall p, p ∈ params -> p_default p = None -> is_Some (kwargs !! p_name p)) ->
  exists left a',
    bind_keywords params kwargs a = ret (left, a') /\
    forall k, left !! k = if decide (k ∈ map p_name params) then None else kwargs !! k.
Proof.
  revert kwargs a. induction params as [|p params IH]; intros kwargs a Hnd Hreq.
  { exists kwargs, a. split; [done|]. intros k. case_decide as Hk; [|done].
    by apply elem_of_nil in Hk. }
  apply NoDup_cons in Hnd as [Hp Hnd]. simpl.
  destruct (kwargs !! p_name p) as [v|] eqn:Hv.
  - destruct (IH (delete (p_name p) kwargs) (<[p_name p := v]> a) Hnd)
      as (left & a' & Hb & Hleft).
    { intros q Hq Hdef. rewrite lookup_delete_ne.
      - apply Hreq; [by right|done].
      - intros Heq. apply Hp. rewrite Heq. apply list_elem_of_fmap. by exists q. }
    exists left, a'. split; [done|]. intros k. rewrite Hleft.
    destruct (decide (k = p_name p)) as [->|Hne].
    + rewrite decide_False by done. rewrite decide_True by left.
      apply lookup_delete_eq.
    + rewrite lookup_delete_ne by done.
      destruct (decide (k ∈ map p_name params)) as [Hin|Hout].
      * by rewrite decide_True by (by right).
      * rewrite decide_False; [done|]. by intros [?|?]%elem_of_cons.
  - destruct (p_default p) as [d|] eqn:Hd.
    + destruct (IH kwargs a Hnd) as (left & a' & Hb & Hleft).
      { intros q Hq Hdef. apply Hreq; [by right|done]. }
      exists left, a'. split; [done|]. intros k. rewrite Hleft.
      destruct (decide (k = p_name p)) as [->|Hne].
      * rewrite decide_False by done. by rewrite decide_True by left.
      * destruct (decide (k ∈ map p_name params)) as [Hin|Hout].
        -- by rewrite decide_True by (by right).
        -- rewrite decide_False; [done|]. by intros [?|?]%elem_of_cons.
    + destruct (Hreq p) as [v Hsome]; [by left|done|]. by rewrite Hv in Hsome.
Qed.

(** The binding succeeds exactly on the arguments that fit. *)
Lemma accepts_fits params args kwargs :
  NoDup (map p_name params) ->
  accepts params args kwargs <-> fits params args kwargs.
Proof.
  intros Hnd. split.
  - intros [arguments Hok]. unfold sig_bind in Hok.
    apply bind_inr in Hok as (o1 & [rest a1] & o2 & Hpos & Hok & _).
    apply bind_inr in Hok as (o3 & [left a2] & o4 & Hkey & Hok & _).
    cbn [fst snd] in *. case_decide as Hleft; [|done]. subst left.
    pose proof (bind_positional_rest _ _ _ _ _ _ _ Hpos) as Hrest. subst rest.
    split; [|split].
    + destruct (le_lt_dec (List.length args) (List.length params)) as [Hle|Hgt]; [done|].
      by rewrite bind_positional_too_many in Hpos.
    + intros k [v Hv].
      destruct (decide (k ∈ map p_name (drop (List.length args) params))) as [Hin|Hout];
        [done|].
      pose proof (bind_keywords_leftover _ _ _ _ _ _ _ Hkey Hout) as Hlook.
      rewrite lookup_empty in Hlook. by rewrite Hv in Hlook.
    + intros p Hp Hdef. destruct (kwargs !! p_name p) as [v|] eqn:Hv; [done|].
      by rewrite (bind_keywords_missing _ kwargs a1 p) in Hkey.
  - intros (Hlen & Hkeys & Hreq).
    rewrite <- (take_drop (List.length args) params), map_app in Hnd.
    apply NoDup_app in Hnd as (_ & Hsep & Hnd).
    destruct (bind_positional_returns params args kwargs ∅ Hlen) as [a1 Hpos].
    { intros p Hp. destruct (kwargs !! p_name p) as [v|] eqn:Hv; [|done].
      exfalso. apply (Hsep (p_name p)).
      - apply list_elem_of_fmap. by exists p.
      - apply Hkeys. by exists v. }
    destruct (bind_keywords_returns _ kwargs a1 Hnd Hreq) as (left & a2 & Hkey & Hleft).
    exists a2. unfold sig_bind. rewrite Hpos, bind_ret_l. cbn [fst snd].
    rewrite Hkey, bind_ret_l. cbn [fst snd].
    rewrite decide_True; [done|]. apply map_eq. intros k.
    rewrite Hleft, lookup_empty. case_decide as Hk; [done|].
    destruct (kwargs !! k) as [v|] eqn:Hv; [|done].
    exfalso. apply Hk, Hkeys. by exists v.
Qed.

Lemma signature_names_distinct (c : command) : NoDup (map p_name (tail (signature c))).
Proof.
  destruct c; cbn; repeat (apply NoDup_cons; split);
    rewrite ?not_elem_of_cons; repeat split; try done;
    try apply not_elem_of_nil; apply NoDup_nil_2.
Qed.

Lemma signature_spec_first (c : command) :
  signature c = Parameter_ "spec" None :: tail (signature c) /\
  "spec"%string ∉ map p_name (tail (signature c)).
Proof.
  split; [by destruct c|].
  destruct c; cbn; rewrite ?not_elem_of_cons; repeat split; try done; apply not_elem_of_nil.
Qed.

(** C8. For every command of the table, all arguments and every
    controller: when the arguments fit the command's signature without its
    leading [spec] parameter (no more positional arguments than parameters,
    every keyword the name of a parameter that no positional argument has
    taken, every parameter left without a default given by keyword),
    [schedule_command] returns a controller whose list for the command's
    type is the old one with the command and its arguments added at the
    end, and whose other list and operational parameters are the old ones;
    when they do not fit, it raises [TypeError] and returns no controller
    to compile. *)
Theorem schedule_command_binds_at_once (ctl : controller) (c : command)
    (args : list value) (kwargs : gmap string value) (tag : bool) :
  EXTRA_COMMANDS c = Some tag ->
  (fits (tail (signature c)) args kwargs ->
     exists ctl',
       schedule_command ctl c args kwargs = ret ctl' /\
       extra_commands ctl' !! tag =
         Some (default [] (extra_commands ctl !! tag) ++ [(c, args, kwargs)]) /\
       extra_commands ctl' !! negb tag = extra_commands ctl !! negb tag /\
       op_params ctl' = op_params ctl)
  /\
  (~ fits (tail (signature c)) args kwargs ->
     schedule_command ctl c args kwargs = raise TypeError).
Proof.
  intros Htag. destruct (signature_spec_first c) as [Hsig Hspec].
  pose proof (sig_bind_spec_slot (tail (signature c)) args kwargs (VInt 1) Hspec) as Hslot.
  rewrite <- Hsig in Hslot.
  rewrite (accepts_fits _ _ _ (signature_names_distinct c)) in Hslot.
  unfold schedule_command. split.
  - intros Hacc. apply Hslot in Hacc as [arguments ->].
    rewrite bind_ret_l, Htag, bind_ret_l. eexists. split; [reflexivity|].
    cbn [extra_commands op_params]. split; [by rewrite lookup_insert_eq|]. split; [|done].
    apply lookup_insert_ne. by destruct tag.
  - intros Hrej.
    destruct (outcome (sig_bind (signature c) (VInt 1 :: args) kwargs))
      as [e|arguments] eqn:Hb.
    + by rewrite (sig_bind_raises _ _ _ _ Hb).
    + exfalso. apply Hrej, Hslot. exists arguments.
      by apply silent_inr; [apply silent_sig_bind|].
Qed.

(** * Further properties *)

(** ** More on pause *)

Lemma set_data_same (spec : Spec.t) : Spec.set_data (Spec.data spec) spec = spec.
Proof. by destruct spec. Qed.

Lemma flat_map_replicate_one {A} (l : list A) : flat_map (replicate 1) l = l.
Proof. induction l as [|a l IH]; [done|]. simpl. f_equal. exact IH. Qed.

Lemma paused_cycle_once (c : cycle) : paused_cycle 1 1 c = c.
Proof.
  destruct c as [|first [|second rest]]; try done.
  unfold paused_cycle. rewrite flat_map_replicate_one.
  change (replicate 1 first) with [first]. cbn [app]. f_equal.
  symmetry. apply (app_removelast_last first). done.
Qed.

(** X1. With an edge count that is a non-zero integer of at most one and a
    middle count that is omitted or an integer of at most one, [pause]
    returns the spec unchanged: a count below one is floored to one, and
    every frame once is the cycle itself. *)
Theorem pause_once_is_identity (spec : Spec.t) (n_edges : Z) (n_middle : option Z) :
  n_edges <> 0%Z -> (n_edges <= 1)%Z ->
  (forall m, n_middle = Some m -> (m <= 1)%Z) ->
  pause spec (VInt n_edges) (arg_of n_middle) = ret spec.
Proof.
  intros Hnz Hle Hm. change (VInt n_edges) with (arg_of (Some n_edges)).
  assert (He : effective 6 (Some n_edges) = 1%Z).
  { unfold effective. destruct (Z.eqb_spec n_edges 0); lia. }
  assert (Hmid : effective 1 n_middle = 1%Z).
  { unfold effective. destruct n_middle as [m|]; [|done].
    specialize (Hm m eq_refl). destruct (m =? 0)%Z; lia. }
  rewrite (pause_in_range spec (Some n_edges) n_middle)
    by (rewrite ?He, ?Hmid; done).
  rewrite He, Hmid. change (Z.to_nat 1) with 1.
  rewrite (map_ext _ id) by apply paused_cycle_once.
  by rewrite map_id, set_data_same.
Qed.

Lemma length_flat_map_replicate {A} (n : nat) (l : list A) :
  List.length (flat_map (replicate n) l) = List.length l * n.
Proof.
  induction l as [|a l IH]; [done|]. simpl.
  rewrite length_app, length_replicate, IH. lia.
Qed.

Lemma paused_cycle_length (E M : nat) (c : cycle) :
  List.length (paused_cycle E M c) = paused_length E M (List.length c).
Proof.
  destruct c as [|first [|second rest]]; [done|apply length_replicate|].
  unfold paused_cycle.
  rewrite !length_app, !length_replicate, length_flat_map_replicate.
  assert (Hne : second :: rest <> []) by done.
  destruct (exists_last Hne) as (mid & lst & ->).
  rewrite removelast_last. cbn [List.length]. rewrite length_app. simpl.
  replace (List.length mid + 1) with (S (List.length mid)) by lia. simpl. lia.
Qed.

(** X2. [pause] turns a cycle of [len] frames into one of
    [paused_length e m len] frames, [e] and [m] being the edge and middle
    counts it works with: none for no frame, [e] for a lone frame, and
    [e + (len - 2) * m + e] otherwise. *)
Theorem pause_frame_counts (spec : Spec.t) (n_edges n_middle : option Z) :
  (effective 6 n_edges <= maxsize)%Z -> (effective 1 n_middle <= maxsize)%Z ->
  exists spec',
    pause spec (arg_of n_edges) (arg_of n_middle) = ret spec' /\
    map (fun c : cycle => List.length c) (Spec.data spec') =
    map (fun c : cycle =>
           paused_length (Z.to_nat (effective 6 n_edges))
                         (Z.to_nat (effective 1 n_middle)) (List.length c))
        (Spec.data spec).
Proof.
  intros He Hm. eexists. split; [by apply pause_in_range|].
  cbn [Spec.data Spec.set_data].
  rewrite map_map. apply map_ext. intros c. apply paused_cycle_length.
Qed.

Lemma elem_of_flat_map_replicate {A} (n : nat) (l : list A) (x : A) :
  0 < n -> In x (flat_map (replicate n) l) <-> In x l.
Proof.
  intros Hn. rewrite in_flat_map. split.
  - intros (y & Hy & Hx). apply list_elem_of_In, elem_of_replicate in Hx as [-> _]. done.
  - intros Hx. exists x. split; [done|].
    apply list_elem_of_In, elem_of_replicate. split; [done|lia].
Qed.

Lemma paused_cycle_frames (E M : nat) (c : cycle) (f : frame) :
  0 < E -> 0 < M -> In f (paused_cycle E M c) <-> In f c.
Proof.
  intros HE HM.
  assert (Hrep : forall x : frame, In f (replicate E x) <-> f = x).
  { intros x. rewrite <- list_elem_of_In, elem_of_replicate. split; [by intros [? _]|]. 
    intros ->. split; [done|lia]. }
  destruct c as [|first [|second rest]]; [done| |].
  - cbn [paused_cycle]. rewrite Hrep. simpl. split; [by left|]. by intros [->|[]].
  - unfold paused_cycle.
    assert (Hne : second :: rest <> []) by done.
    destruct (exists_last Hne) as (mid & lst & ->).
    rewrite removelast_last, last_last.
    rewrite !in_app_iff, !Hrep, elem_of_flat_map_replicate by done.
    cbn [In]. rewrite in_app_iff. cbn [In]. split; intros; destruct_or?; subst; tauto.
Qed.

Lemma uniform_concat (w : nat) (data : list cycle) :
  uniform w data <-> Forall (fun f : frame => List.length f = w) (concat data).
Proof. unfold uniform. by rewrite Forall_concat. Qed.

(** X3. [pause] keeps the number of cycles, and every cycle keeps exactly
    the frames it had, whatever their multiplicity; so all frames are [w]
    wide after [pause] exactly when they were before. *)
Theorem pause_keeps_frames (spec : Spec.t) (n_edges n_middle : option Z) :
  (effective 6 n_edges <= maxsize)%Z -> (effective 1 n_middle <= maxsize)%Z ->
  exists spec',
    pause spec (arg_of n_edges) (arg_of n_middle) = ret spec' /\
    List.length (Spec.data spec') = List.length (Spec.data spec) /\
    (forall i c c', Spec.data spec !! i = Some c -> Spec.data spec' !! i = Some c' ->
                    forall f : frame, In f c' <-> In f c) /\
    (forall w, uniform w (Spec.data spec') <-> uniform w (Spec.data spec)).
Proof.
  intros He Hm. eexists. split; [by apply pause_in_range|].
  cbn [Spec.data Spec.set_data].
  set (E := Z.to_nat (effective 6 n_edges)). set (M := Z.to_nat (effective 1 n_middle)).
  assert (HE : 0 < E) by (unfold E, effective; lia).
  assert (HM : 0 < M) by (unfold M, effective; lia).
  split; [by rewrite length_map|]. split.
  - intros i c c' Hc Hc' f. rewrite map_fmap, list_lookup_fmap, Hc in Hc'.
    injection Hc' as <-. by apply paused_cycle_frames.
  - intros w. unfold uniform. rewrite map_fmap, Forall_fmap.
    apply Forall_iff. intros c. simpl.
    rewrite !Forall_forall. split; intros Hall f Hf.
    + apply Hall. apply list_elem_of_In, paused_cycle_frames; [done|done|]. by apply list_elem_of_In.
    + apply Hall. apply list_elem_of_In. apply list_elem_of_In, paused_cycle_frames in Hf; done.
Qed.

(** X4. A non-empty string as either count makes [pause] raise
    [TypeError], the edge count being looked at first, while the empty
    string, which is false, stands for an omitted count. *)
Theorem pause_rejects_text (spec : Spec.t) (s : string) (v : value) :
  s <> EmptyString ->
  pause spec (VStr s) v = raise TypeError /\
  (forall n : option Z, pause spec (arg_of n) (VStr s) = raise TypeError) /\
  pause spec (VStr EmptyString) v = pause spec VNone v /\
  pause spec v (VStr EmptyString) = pause spec v VNone.
Proof.
  intros Hs.
  assert (Ht : truthy (VStr s) = true).
  { simpl. destruct (String.eqb_spec s EmptyString); done. }
  split; [|split; [|split]].
  - unfold pause, or_. by rewrite Ht.
  - intros n. unfold pause. rewrite max_int_or_default, bind_ret_l.
    unfold or_. by rewrite Ht.
  - reflexivity.
  - reflexivity.
Qed.

(** ** More on reshape *)


(** X5. [reshape] raises [ValueError] on a negative group size and on a
    string, and with a group size of [0] it leaves no cycle at all. *)
Theorem reshape_rejects_bad_sizes (spec : Spec.t) :
  (forall n, (n < 0)%Z -> reshape spec (VInt n) = raise ValueError) /\
  (forall s, reshape spec (VStr s) = raise ValueError) /\
  reshape spec (VInt 0) = ret (Spec.set_data [] spec).
Proof.
  split; [|split].
  - intros n Hn. unfold reshape.
    by replace (n <? 0)%Z with true by (symmetry; apply Z.ltb_lt; lia).
  - done.
  - rewrite reshape_returns by (pose proof maxsize_pos; lia). by rewrite iter_islice_zero.
Qed.

Lemma iter_islice_all {A} (n : nat) (l : list A) :
  l <> [] -> List.length l <= n -> iter_islice n l = [l].
Proof.
  intros Hne Hlen. rewrite iter_islice_cons; [|destruct l; [done|simpl in Hlen; lia]|done].
  rewrite take_ge by done. rewrite drop_ge by done. by rewrite iter_islice_nil.
Qed.

(** X6. When there is a frame and the group size is at least the number
    of frames and at most [sys.maxsize], [reshape] puts all frames into one
    cycle, as it does with [None] for a size. *)
Theorem reshape_one_group (spec : Spec.t) (n : Z) :
  concat (Spec.data spec) <> [] ->
  (Z.of_nat (List.length (concat (Spec.data spec))) <= n <= maxsize)%Z ->
  reshape spec (VInt n) = ret (Spec.set_data [concat (Spec.data spec)] spec) /\
  reshape spec VNone = ret (Spec.set_data [concat (Spec.data spec)] spec).
Proof.
  intros Hne Hn. split.
  - rewrite reshape_returns by lia. rewrite iter_islice_all; [done|done|lia].
  - unfold reshape. by destruct (concat (Spec.data spec)).
Qed.

(** X7. [reshape] forgets the grouping it finds: regrouping by a positive
    [n] and then by [m], neither above [sys.maxsize], is regrouping by
    [m]. *)
Theorem reshape_after_reshape (spec : Spec.t) (n m : Z) :
  (0 < n <= maxsize)%Z -> (0 <= m <= maxsize)%Z ->
  (let* once := reshape spec (VInt n) in reshape once (VInt m)) = reshape spec (VInt m).
Proof.
  intros Hn Hm. rewrite !reshape_returns by lia. rewrite bind_ret_l.
  rewrite reshape_returns by lia. cbn [Spec.data Spec.set_data].
  rewrite iter_islice_concat by lia. by destruct spec.
Qed.

Lemma iter_islice_length {A} (n : nat) (l : list A) :
  0 < n -> List.length (iter_islice n l) = (List.length l + n - 1) / n.
Proof.
  intros Hn. induction l as [|l Hl IH] using (iter_islice_ind n Hn).
  - rewrite iter_islice_nil. simpl. symmetry. apply Nat.div_small. lia.
  - rewrite iter_islice_cons by done. cbn [List.length]. rewrite IH, length_drop.
    assert (Hpos : 0 < List.length l) by (destruct l; [done|simpl; lia]).
    destruct (le_lt_dec (List.length l) n) as [Hle|Hgt].
    + replace (List.length l - n) with 0 by lia.
      rewrite (Nat.div_small (0 + n - 1)) by lia.
      apply Nat.div_unique with (r := List.length l - 1); lia.
    + replace (List.length l + n - 1) with ((List.length l - n + n - 1) + 1 * n) by lia.
      rewrite Nat.div_add by lia. lia.
Qed.

(** X8. [reshape] by a positive [n] of at most [sys.maxsize] leaves as
    many cycles as the number of frames divided by [n], rounded up. *)
Theorem reshape_cycle_count (spec : Spec.t) (n : Z) :
  (0 < n <= maxsize)%Z ->
  exists spec',
    reshape spec (VInt n) = ret spec' /\
    let total := List.length (concat (Spec.data spec)) in
    List.length (Spec.data spec') = (total + Z.to_nat n - 1) / Z.to_nat n.
Proof.
  intros Hn. eexists. split; [apply reshape_returns; lia|].
  cbn [Spec.data Spec.set_data]. apply iter_islice_length. lia.
Qed.

Lemma iter_islice_rectangular {A} (n : nat) (rows : list (list A)) :
  0 < n -> Forall (fun r => List.length r = n) rows ->
  iter_islice n (concat rows) = rows.
Proof.
  intros Hn. induction 1 as [|r rows Hr _ IH]; [apply iter_islice_nil|].
  cbn [concat]. rewrite iter_islice_cons; [|done|destruct r; [simpl in Hr; lia|done]].
  rewrite take_app_length' by done. rewrite drop_app_length' by done. by rewrite IH.
Qed.

(** X9. On cycles that all have exactly [n] frames, [n] positive and at
    most [sys.maxsize], [reshape] by [n] returns the spec unchanged. *)
Theorem reshape_own_size_is_identity (spec : Spec.t) (n : Z) :
  (0 < n <= maxsize)%Z ->
  Forall (fun c : cycle => Z.of_nat (List.length c) = n) (Spec.data spec) ->
  reshape spec (VInt n) = ret spec.
Proof.
  intros Hn Hall. rewrite reshape_returns by lia.
  rewrite iter_islice_rectangular; [by rewrite set_data_same|lia|].
  eapply Forall_impl; [exact Hall|]. intros c Hc. simpl in Hc. lia.
Qed.

(** X10. [reshape] by a positive size of at most [sys.maxsize] neither
    mends nor breaks the widths: all frames are [w] wide afterwards exactly
    when they were before. *)
Theorem reshape_keeps_widths (spec : Spec.t) (n : Z) (w : nat) :
  (0 < n <= maxsize)%Z ->
  exists spec',
    reshape spec (VInt n) = ret spec' /\
    (uniform w (Spec.data spec') <-> uniform w (Spec.data spec)).
Proof.
  intros Hn. eexists. split; [apply reshape_returns; lia|].
  cbn [Spec.data Spec.set_data]. rewrite !uniform_concat.
  by rewrite iter_islice_concat by lia.
Qed.

(** ** More on transpose *)

Section Zip_more.
Context {A : Type}.
Implicit Types (rows : list (list A)) (h : list A).

Lemma shortest_cons h rows :
  rows <> [] -> shortest (h :: rows) = Nat.min (List.length h) (shortest rows).
Proof. by destruct rows. Qed.

Lemma zip_star_rounds rows :
  rows <> [] -> List.length (zip_star rows) = shortest rows.
Proof.
  induction rows as [|h rows IH]; [done|]. intros _.
  destruct rows as [|r rows].
  - by rewrite zip_star_single, length_map.
  - rewrite zip_star_cons, shortest_cons by done.
    rewrite length_zip_with, IH by done. lia.
Qed.

Lemma zip_star_round_length rows :
  Forall (fun round => List.length round = List.length rows) (zip_star rows).
Proof.
  induction rows as [|h rows IH]; [constructor|].
  destruct rows as [|r rows].
  - rewrite zip_star_single. apply Forall_forall. intros x Hx.
    apply list_elem_of_In, in_map_iff in Hx as (y & <- & _). done.
  - rewrite zip_star_cons by done.
    apply Forall_lookup. intros j round Hj.
    rewrite lookup_zip_with in Hj.
    destruct (h !! j) as [x|]; [|done].
    destruct (zip_star (r :: rows) !! j) as [tl|] eqn:Htl; simpl in Hj; [|done].
    injection Hj as <-. rewrite Forall_lookup in IH. simpl. f_equal. by apply (IH j).
Qed.

(** The item at place [i] of round [j] is the item at place [j] of row
    [i]. *)
Lemma zip_star_lookup rows i j :
  j < shortest rows ->
  zip_star rows !! j ≫= (.!! i) = rows !! i ≫= (.!! j).
Proof.
  revert i. induction rows as [|h rows IH]; intros i Hj; [simpl in Hj; lia|].
  destruct rows as [|r rows].
  - rewrite zip_star_single. simpl in Hj.
    destruct (lookup_lt_is_Some_2 h j Hj) as [x Hx].
    rewrite map_fmap, list_lookup_fmap, Hx. simpl.
    destruct i as [|i]; simpl; [done|]. by destruct i.
  - rewrite shortest_cons in Hj by done.
    rewrite zip_star_cons by done. rewrite lookup_zip_with.
    destruct (lookup_lt_is_Some_2 h j) as [x Hx]; [lia|].
    destruct (lookup_lt_is_Some_2 (zip_star (r :: rows)) j) as [tl Htl].
    { rewrite zip_star_rounds by done. lia. }
    rewrite Hx, Htl. simpl.
    destruct i as [|i]; simpl; [done|].
    specialize (IH i ltac:(lia)). by rewrite Htl in IH.
Qed.

Lemma shortest_le rows r : r ∈ rows -> shortest rows <= List.length r.
Proof.
  induction rows as [|h rows IH]; [by intros ?%elem_of_nil|].
  destruct rows as [|r' rows].
  - intros ->%list_elem_of_singleton. done.
  - rewrite shortest_cons by done. intros [->|Hr]%elem_of_cons; [lia|].
    specialize (IH Hr). lia.
Qed.

Lemma shortest_map_take rows k :
  rows <> [] -> k <= shortest rows -> shortest (map (take k) rows) = k.
Proof.
  induction rows as [|h rows IH]; [done|]. intros _ Hk.
  destruct rows as [|r rows].
  - simpl in *. rewrite length_take. lia.
  - rewrite shortest_cons in Hk by done.
    change (map (take k) (h :: r :: rows)) with (take k h :: map (take k) (r :: rows)).
    rewrite shortest_cons by done. rewrite IH by (done || lia).
    rewrite length_take. lia.
Qed.

(** Two lists of rows with the same items at the same places. *)
Lemma rows_eq (l1 l2 : list (list A)) (n : nat) :
  List.length l1 = List.length l2 ->
  Forall (fun r => List.length r = n) l1 ->
  Forall (fun r => List.length r = n) l2 ->
  (forall j i, j < List.length l1 -> l1 !! j ≫= (.!! i) = l2 !! j ≫= (.!! i)) ->
  l1 = l2.
Proof.
  intros Hlen H1 H2 Hitems. apply list_eq. intros j.
  destruct (decide (j < List.length l1)) as [Hj|Hj].
  - destruct (lookup_lt_is_Some_2 l1 j Hj) as [a Ha].
    destruct (lookup_lt_is_Some_2 l2 j) as [b Hb]; [lia|].
    rewrite Ha, Hb. f_equal. apply list_eq. intros i.
    specialize (Hitems j i Hj). by rewrite Ha, Hb in Hitems.
  - rewrite !lookup_ge_None_2 by lia. done.
Qed.

(** Only the part of the rows as long as the shortest one counts. *)
Lemma zip_star_take rows :
  zip_star (map (take (shortest rows)) rows) = zip_star rows.
Proof.
  destruct (decide (rows = [])) as [->|Hne]; [done|].
  assert (Hne' : map (take (shortest rows)) rows <> []) by by destruct rows.
  apply (rows_eq _ _ (List.length rows)).
  - rewrite !zip_star_rounds by done. by apply shortest_map_take.
  - pose proof (zip_star_round_length (map (take (shortest rows)) rows)) as Hr.
    by rewrite length_map in Hr.
  - apply zip_star_round_length.
  - intros j i Hj. rewrite zip_star_rounds, shortest_map_take in Hj by done.
    rewrite !zip_star_lookup by (rewrite ?shortest_map_take; done).
    rewrite map_fmap, list_lookup_fmap.
    destruct (rows !! i) as [r|]; [|done]. simpl. by apply lookup_take_lt.
Qed.

Lemma zip_star_twice rows :
  zip_star (zip_star rows) =
  if decide (shortest rows = 0) then [] else map (take (shortest rows)) rows.
Proof.
  case_decide as Hk.
  - destruct (decide (rows = [])) as [->|Hne]; [done|].
    assert (Hnil : zip_star rows = []).
    { apply nil_length_inv. by rewrite zip_star_rounds. }
    by rewrite Hnil.
  - rewrite <- (zip_star_take rows).
    apply (zip_star_involutive _ (shortest rows)); [lia|].
    apply Forall_forall. intros r Hr.
    apply list_elem_of_In, in_map_iff in Hr as (r0 & <- & Hr0).
    rewrite length_take. apply list_elem_of_In, shortest_le in Hr0. lia.
Qed.

Lemma zip_star_thrice rows : zip_star (zip_star (zip_star rows)) = zip_star rows.
Proof.
  rewrite (zip_star_twice rows). case_decide as Hk.
  - destruct (decide (rows = [])) as [->|Hne]; [done|].
    symmetry. apply nil_length_inv. by rewrite zip_star_rounds.
  - apply zip_star_take.
Qed.

End Zip_more.

(** X11. [transpose] returns; with at least one cycle it leaves as many
    cycles as the shortest cycle had frames, every new cycle has one frame
    per old cycle, and the frame at place [i] of the new cycle [j] is the
    frame at place [j] of the old cycle [i]. *)
Theorem transpose_swaps_places (spec : Spec.t) :
  exists spec',
    transpose spec = ret spec' /\
    (Spec.data spec <> [] -> List.length (Spec.data spec') = shortest (Spec.data spec)) /\
    Forall (fun c : cycle => List.length c = List.length (Spec.data spec)) (Spec.data spec') /\
    (forall i j, j < shortest (Spec.data spec) ->
                 Spec.data spec' !! j ≫= (.!! i) = Spec.data spec !! i ≫= (.!! j)).
Proof.
  eexists. split; [reflexivity|]. cbn [Spec.data Spec.set_data].
  split; [apply zip_star_rounds|]. split; [apply zip_star_round_length|].
  intros i j. apply zip_star_lookup.
Qed.

(** X12. [transpose] applied twice cuts every cycle down to the length of
    the shortest one, and leaves no cycle at all when some cycle has no
    frame. *)
Theorem transpose_twice_cuts_to_shortest (spec : Spec.t) :
  (let* once := transpose spec in transpose once) =
  ret (Spec.set_data
         (if decide (shortest (Spec.data spec) = 0) then []
          else map (take (shortest (Spec.data spec))) (Spec.data spec))
         spec).
Proof.
  unfold transpose. rewrite bind_ret_l. cbn [Spec.data Spec.set_data].
  by rewrite zip_star_twice.
Qed.

(** X13. A third [transpose] undoes the second: three in a row give what
    one gives. *)
Theorem transpose_thrice_is_once (spec : Spec.t) :
  (let* once := transpose spec in
   let* twice := transpose once in transpose twice) = transpose spec.
Proof.
  unfold transpose. rewrite !bind_ret_l. cbn [Spec.data Spec.set_data].
  by rewrite zip_star_thrice.
Qed.

(** X14. When all frames are [w] wide, so are the frames [transpose]
    leaves. *)
Theorem transpose_keeps_widths (spec : Spec.t) (w : nat) :
  uniform w (Spec.data spec) ->
  exists spec', transpose spec = ret spec' /\ uniform w (Spec.data spec').
Proof.
  intros Hu. eexists. split; [reflexivity|]. cbn [Spec.data Spec.set_data].
  unfold uniform in *. apply Forall_lookup. intros j round Hround.
  apply Forall_lookup. intros i f Hf.
  assert (Hj : j < shortest (Spec.data spec)).
  { destruct (decide (Spec.data spec = [])) as [Hnil|Hne]; [by rewrite Hnil in Hround|].
    rewrite <- zip_star_rounds by done. by eapply lookup_lt_Some. }
  pose proof (zip_star_lookup (Spec.data spec) i j Hj) as Hitem.
  rewrite Hround in Hitem. simpl in Hitem. rewrite Hf in Hitem.
  destruct (Spec.data spec !! i) as [c|] eqn:Hc; [|done]. simpl in Hitem.
  rewrite Forall_lookup in Hu. specialize (Hu i c Hc).
  rewrite Forall_lookup in Hu. by apply (Hu j).
Qed.

(** ** More on replace and randomize *)

Lemma bind_assoc {A B C} (m : py A) (k : A -> py B) (h : B -> py C) :
  Py.bind (Py.bind m k) h = Py.bind m (fun a => Py.bind (k a) h).
Proof.
  destruct m as [out [e|a]]; simpl; [done|].
  destruct (k a) as [out1 [e|b]]; simpl; [done|].
  destruct (h b) as [out2 r]. by rewrite app_assoc.
Qed.

Lemma bind_raise {A B} e (k : A -> py B) : Py.bind (raise e) k = raise e.
Proof. done. Qed.

Lemma str_replace_method_refuses s old new :
  not_both_strings old new -> str_replace_method s old new = raise TypeError.
Proof. by destruct old, new. Qed.

(** What a failing comprehension raises, one of its items raised. *)
Lemma for_each_error {A B} (P : exn -> Prop) (f : A -> py B) (l : list A) e :
  (forall a e, outcome (f a) = inl e -> P e) ->
  outcome (for_each f l) = inl e -> P e.
Proof.
  intros Hf. induction l as [|a l IH]; simpl; [done|].
  destruct (f a) as [out [e1|b]] eqn:Hfa.
  - simpl. intros [= <-]. apply (Hf a). by rewrite Hfa.
  - destruct (for_each f l) as [out2 [e2|bs]]; simpl; [|done].
    intros [= <-]. by apply IH.
Qed.

Section More_commands.
Context `{CellModel}.

(** X15. With no frame in any cycle [replace] returns the spec unchanged
    whatever its arguments are; with a frame, and an [old] or a [new] that
    is not a string, it raises [TypeError]. *)
Theorem replace_needs_strings (spec : Spec.t) (old new : value) :
  (concat (Spec.data spec) = [] -> replace spec old new = ret spec) /\
  (not_both_strings old new -> concat (Spec.data spec) <> [] ->
   replace spec old new = raise TypeError).
Proof.
  unfold replace. destruct spec as [data nat rnd cyc len frs tot]. cbn [Spec.data].
  split.
  - intros Hnil.
    rewrite (for_each_ret _ (fun c : cycle => c)).
    + rewrite bind_ret_l. unfold Spec.set_data. simpl. by rewrite map_id.
    + intros c Hc. destruct c as [|f c]; [done|].
      exfalso. apply list_elem_of_In, in_split in Hc as (l1 & l2 & ->).
      rewrite concat_app in Hnil. simpl in Hnil. by destruct (concat l1).
  - intros Hargs Hframe. induction data as [|c data IH]; [done|].
    destruct c as [|f c].
    + simpl in *. specialize (IH Hframe).
      destruct (for_each _ data) as [out [e|d]] eqn:Hd; simpl in *; [done|done].
    + simpl. by rewrite str_replace_method_refuses.
Qed.

(** X16. On a spec without the attribute [cycles], as the compiler's own
    commands find it, [randomize] returns with a positive count, and raises
    [AttributeError] for [cycles] with an omitted or non-positive one. *)
Theorem randomize_before_spec_info (spec : Spec.t) (cycles : option Z) :
  Spec.cycles spec = None ->
  randomize spec (arg_of cycles) =
    match cycles with
    | Some n =>
        if (0 <? n)%Z then ret (Spec.set_randomize_cycles true n spec)
        else raise (AttributeError "cycles")
    | None => raise (AttributeError "cycles")
    end.
Proof.
  intros Hc. unfold randomize. rewrite max_int_or_default, bind_ret_l.
  unfold get_cycles. rewrite Hc.
  destruct cycles as [n|]; [|done].
  destruct (Z.eqb_spec n 0) as [->|Hn]; [done|].
  destruct (Z.ltb_spec 0 n).
  - replace (Z.max 0 n) with n by lia.
    destruct (Z.eqb_spec n 0); [lia|]. by rewrite bind_ret_l.
  - by replace (Z.max 0 n) with 0%Z by lia.
Qed.

(** X17. [randomize] run on what [randomize] returned: a positive count
    takes the place of the earlier one, an omitted or non-positive count
    leaves the spec as it is, earlier count included. *)
Theorem randomize_again (spec once : Spec.t) (first second : option Z) :
  randomize spec (arg_of first) = ret once ->
  randomize once (arg_of second) =
    ret (match second with
         | Some n => if (0 <? n)%Z then Spec.set_randomize_cycles true n spec else once
         | None => once
         end).
Proof.
  unfold randomize. rewrite !max_int_or_default, !bind_ret_l.
  intros Hfirst.
  assert (Honce : exists c, once = Spec.set_randomize_cycles true c spec) .
  { destruct (_ =? 0)%Z.
    - unfold get_cycles in Hfirst. destruct (Spec.cycles spec) as [c|]; [|done].
      rewrite bind_ret_l in Hfirst. injection Hfirst as <-. by exists c.
    - rewrite bind_ret_l in Hfirst. injection Hfirst as <-. by eexists. }
  destruct Honce as [c ->].
  destruct second as [n|].
  - destruct (Z.eqb_spec n 0) as [->|Hn].
    + done.
    + destruct (Z.ltb_spec 0 n).
      * replace (Z.max 0 n) with n by lia.
        destruct (Z.eqb_spec n 0); [lia|]. by rewrite bind_ret_l.
      * replace (Z.max 0 n) with 0%Z by lia. done.
  - done.
Qed.

End More_commands.

(** ** More on the compiler and the runner *)

Lemma outcome_bind_inr {A B} (m : py A) (k : A -> py B) b :
  outcome (Py.bind m k) = inr b ->
  exists a, outcome m = inr a /\ outcome (k a) = inr b.
Proof.
  destruct m as [out [e|a]]; unfold outcome; simpl; [done|].
  intros Hk. exists a. split; [done|]. by destruct (k a).
Qed.

Lemma outcome_bind_inl {A B} (m : py A) (k : A -> py B) e :
  outcome (Py.bind m k) = inl e ->
  outcome m = inl e \/ exists a, outcome m = inr a /\ outcome (k a) = inl e.
Proof.
  destruct m as [out [e1|a]]; unfold outcome; simpl.
  - intros [= ->]. by left.
  - intros Hk. right. exists a. split; [done|]. by destruct (k a).
Qed.

Lemma bind_ext {A B} (m : py A) (k k' : A -> py B) :
  (forall a, k a = k' a) -> Py.bind m k = Py.bind m k'.
Proof. intros Hk. destruct m as [out [e|a]]; simpl; [done|]. by rewrite Hk. Qed.

Section More_compiler.
Context `{CellModel} `{Colors}.

(** What a command leaves of the spec it was given: the natural length and
    the spec info always; the flag is raised by [randomize] alone. *)
Lemma call_keeps c spec args kwargs spec' :
  outcome (call c spec args kwargs) = inr spec' ->
  Spec.natural spec' = Spec.natural spec /\
  Spec.length spec' = Spec.length spec /\
  Spec.frames spec' = Spec.frames spec /\
  Spec.total_frames spec' = Spec.total_frames spec /\
  Spec.randomize spec' = Spec.randomize spec || is_randomize c.
Proof.
  unfold call. intros (arguments & _ & Hrun)%outcome_bind_inr.
  destruct c; cbn [is_randomize]; rewrite ?orb_false_r, ?orb_true_r.
  - unfold replace in Hrun. apply outcome_bind_inr in Hrun as (d & _ & [= <-]). done.
  - unfold pause in Hrun.
    apply outcome_bind_inr in Hrun as (n1 & _ & Hrun).
    apply outcome_bind_inr in Hrun as (n2 & _ & Hrun).
    apply outcome_bind_inr in Hrun as (d & _ & [= <-]). done.
  - unfold reshape in Hrun. destruct (default VNone _) as [|n|s]; [| |done].
    + injection Hrun as <-. done.
    + destruct (_ || _); [done|]. injection Hrun as <-. done.
  - injection Hrun as <-. done.
  - unfold randomize in Hrun.
    apply outcome_bind_inr in Hrun as (n1 & _ & Hrun).
    apply outcome_bind_inr in Hrun as (n2 & _ & [= <-]). done.
  - injection Hrun as <-. done.
Qed.

(** No command removes the attribute [cycles]. *)
Lemma call_keeps_absent_cycles c spec args kwargs spec' :
  outcome (call c spec args kwargs) = inr spec' ->
  Spec.cycles spec' = None -> Spec.cycles spec = None.
Proof.
  unfold call. intros (arguments & _ & Hrun)%outcome_bind_inr.
  destruct c.
  - unfold replace in Hrun. apply outcome_bind_inr in Hrun as (d & _ & [= <-]). done.
  - unfold pause in Hrun.
    apply outcome_bind_inr in Hrun as (n1 & _ & Hrun).
    apply outcome_bind_inr in Hrun as (n2 & _ & Hrun).
    apply outcome_bind_inr in Hrun as (d & _ & [= <-]). done.
  - unfold reshape in Hrun. destruct (default VNone _) as [|n|s]; [| |done].
    + injection Hrun as <-. done.
    + destruct (_ || _); [done|]. injection Hrun as <-. done.
  - injection Hrun as <-. done.
  - unfold randomize in Hrun.
    apply outcome_bind_inr in Hrun as (n1 & _ & Hrun).
    apply outcome_bind_inr in Hrun as (n2 & _ & [= <-]). done.
  - injection Hrun as <-. done.
Qed.

Lemma apply_extra_commands_keeps cmds spec spec' :
  outcome (apply_extra_commands spec cmds) = inr spec' ->
  Spec.natural spec' = Spec.natural spec /\
  Spec.length spec' = Spec.length spec /\
  Spec.frames spec' = Spec.frames spec /\
  Spec.total_frames spec' = Spec.total_frames spec /\
  Spec.randomize spec' =
    Spec.randomize spec || existsb (fun r : record => is_randomize (fst (fst r))) cmds.
Proof.
  revert spec. induction cmds as [|[[c args] kwargs] cmds IH]; intros spec; simpl.
  - intros [= <-]. by rewrite orb_false_r.
  - intros (mid & Hcall & Hrest)%outcome_bind_inr.
    apply call_keeps in Hcall as (Hn & Hl & Hf & Ht & Hr).
    apply IH in Hrest as (-> & -> & -> & -> & ->).
    rewrite Hn, Hl, Hf, Ht, Hr, orb_assoc. done.
Qed.

(** What a command can raise: [TypeError] from the binding of its
    arguments or from an argument of the wrong type, [ValueError] from
    [reshape], the missing attribute from [randomize] and [OverflowError]
    from [pause]. *)
Lemma call_raises c spec args kwargs e :
  outcome (call c spec args kwargs) = inl e ->
  e = TypeError \/
  (c = Creshape /\ e = ValueError) \/
  (c = Crandomize /\ e = AttributeError "cycles" /\ Spec.cycles spec = None) \/
  (c = Cpause /\ e = OverflowError).
Proof.
  unfold call. intros [Hbind|(arguments & _ & Hrun)]%outcome_bind_inl.
  { left. pose proof (sig_bind_raises _ _ _ _ Hbind) as Hraise.
    rewrite Hraise in Hbind. by injection Hbind. }
  destruct c.
  - left. unfold replace in Hrun.
    apply outcome_bind_inl in Hrun as [Hrun|(d & _ & Hrun)]; [|done].
    revert Hrun. apply (for_each_error (fun e => e = TypeError)). intros c e1.
    apply (for_each_error (fun e => e = TypeError)). intros f e2.
    intros [Hm|(t & _ & Hm)]%outcome_bind_inl; [|done].
    unfold str_replace_method in Hm. by repeat case_match; simplify_eq/=.
  - unfold pause in Hrun.
    apply outcome_bind_inl in Hrun as [Hrun|(n1 & _ & Hrun)].
    { left. unfold max_int in Hrun. by repeat case_match; simplify_eq/=. }
    apply outcome_bind_inl in Hrun as [Hrun|(n2 & _ & Hrun)].
    { left. unfold max_int in Hrun. by repeat case_match; simplify_eq/=. }
    apply outcome_bind_inl in Hrun as [Hrun|(d & _ & Hrun)]; [|done].
    right; right; right. split; [done|].
    revert Hrun. apply (for_each_error (fun e => e = OverflowError)). intros c e1.
    intros [Hruns|(runs & _ & Hruns)]%outcome_bind_inl; [|done].
    revert Hruns. apply (for_each_error (fun e => e = OverflowError)). intros [i f] e2.
    unfold Py.repeat. destruct (_ || _); [|done]. by intros [= <-].
  - right; left. unfold reshape in Hrun. destruct (default VNone _) as [|n|s]; [done| |].
    + destruct (_ || _); [|done]. by injection Hrun as <-.
    + by injection Hrun as <-.
  - done.
  - unfold randomize in Hrun.
    apply outcome_bind_inl in Hrun as [Hrun|(n1 & _ & Hrun)].
    { left. unfold max_int in Hrun. by repeat case_match; simplify_eq/=. }
    apply outcome_bind_inl in Hrun as [Hrun|(n2 & _ & Hrun)]; [|done].
    right; right; left. destruct (n1 =? 0)%Z; [|done].
    unfold get_cycles in Hrun. destruct (Spec.cycles spec); [done|].
    by injection Hrun as <-.
  - done.
Qed.

(** The commands leave assertions to the compiler. *)
Lemma apply_extra_commands_no_assertion spec cmds e message :
  outcome (apply_extra_commands spec cmds) = inl e -> e <> AssertionError message.
Proof.
  revert spec. induction cmds as [|[[c args] kwargs] cmds IH]; intros spec; simpl; [done|].
  intros [Hcall|(mid & _ & Hrest)]%outcome_bind_inl; [|by eapply IH].
  by apply call_raises in Hcall as [->|[[_ ->]|[(_ & -> & _)|[_ ->]]]].
Qed.

(** X18. Running a list of commands followed by another is running the
    first list and then the second on what it returns; when a command of the
    first list raises, none of the later ones runs and the same error comes
    out. *)
Theorem apply_extra_commands_app (spec : Spec.t) (first later : list record) :
  apply_extra_commands spec (first ++ later) =
    (let* mid := apply_extra_commands spec first in apply_extra_commands mid later) /\
  (forall e, outcome (apply_extra_commands spec first) = inl e ->
             apply_extra_commands spec (first ++ later) = raise e).
Proof.
  assert (Happ : forall spec,
             apply_extra_commands spec (first ++ later) =
             (let* mid := apply_extra_commands spec first in apply_extra_commands mid later)).
  { clear spec. induction first as [|[[c args] kwargs] first IH]; intros spec.
    - cbn [app apply_extra_commands]. by rewrite bind_ret_l.
    - cbn [app apply_extra_commands]. rewrite bind_assoc.
      apply bind_ext. intros mid. apply IH. }
  split; [apply Happ|]. intros e He. rewrite Happ.
  apply silent_inl in He; [|apply silent_apply_extra_commands]. by rewrite He.
Qed.

(** X19. What a run of commands can raise: [TypeError]; [ValueError], and
    then a [reshape] is among the commands; [AttributeError] for [cycles],
    and then the spec had no [cycles] attribute and a [randomize] is among
    the commands; [OverflowError], and then a [pause] is among the
    commands. *)
Theorem apply_extra_commands_raises (spec : Spec.t) (cmds : list record) (e : exn) :
  outcome (apply_extra_commands spec cmds) = inl e ->
  e = TypeError \/
  (e = ValueError /\ exists args kwargs, (Creshape, args, kwargs) ∈ cmds) \/
  (e = AttributeError "cycles" /\ Spec.cycles spec = None /\
   exists args kwargs, (Crandomize, args, kwargs) ∈ cmds) \/
  (e = OverflowError /\ exists args kwargs, (Cpause, args, kwargs) ∈ cmds).
Proof.
  revert spec. induction cmds as [|[[c args] kwargs] cmds IH]; intros spec; simpl; [done|].
  intros [Hcall|(mid & Hcall & Hrest)]%outcome_bind_inl.
  - apply call_raises in Hcall as [->|[[-> ->]|[(-> & -> & Hc)|[-> ->]]]]; [by left| | |].
    + right; left. split; [done|]. exists args, kwargs. by left.
    + right; right; left. split; [done|]. split; [done|]. exists args, kwargs. by left.
    + right; right; right. split; [done|]. exists args, kwargs. by left.
  - apply IH in Hrest
      as [->|[[-> (a & k & Hin)]|[(-> & Hc & a & k & Hin)|[-> (a & k & Hin)]]]];
      [by left| | |].
    + right; left. split; [done|]. exists a, k. by right.
    + right; right; left. split; [done|]. split; [by eapply call_keeps_absent_cycles|].
      exists a, k. by right.
    + right; right; right. split; [done|]. exists a, k. by right.
Qed.

(** X20. [spinner_compiler] prints exactly when it raises the
    [AssertionError] of the width check: a returned spec, and every other
    error, come without output. *)
Theorem spinner_compiler_output (gen : list (list frame)) (natural : Z)
    (cmds : list record) :
  stdout (spinner_compiler gen natural cmds) <> [] <->
  outcome (spinner_compiler gen natural cmds) =
    inl (AssertionError (VStr different_lengths_message)).
Proof.
  destruct (outcome (apply_extra_commands (initial gen natural) cmds)) as [e|spec']
    eqn:Hcmds.
  - rewrite (spinner_compiler_commands_fail _ _ _ _ Hcmds). simpl. split; [done|].
    intros [= ->]. by eapply apply_extra_commands_no_assertion in Hcmds.
  - rewrite (spinner_compiler_after_commands _ _ _ _ Hcmds).
    destruct (Spec.data spec') as [|[|frame0 cycle0] rest] eqn:Hdata; [done|done|].
    case_decide; [done|]. simpl. split; [done|]. intros _ Hnil.
    destruct (render_frames_returns spec' frame0 true) as [_ Hlen].
    { by rewrite Hdata. }
    rewrite Hnil, Hdata in Hlen. simpl in Hlen. lia.
Qed.

(** X21. A spec that [spinner_compiler] returns has the natural length
    the compiler was given; [cycles] is the number of its cycles, so that a
    count set by a [randomize] among the commands is overwritten; [frames]
    lists the frame count of every cycle and [total_frames] is the number
    of all frames; [randomize] is set exactly when a [randomize] was among
    the commands. *)
Theorem spinner_compiler_spec_info (gen : list (list frame)) (natural : Z)
    (cmds : list record) (out : list string) (spec : Spec.t) :
  spinner_compiler gen natural cmds = (out, inr spec) ->
  Spec.natural spec = natural /\
  Spec.cycles spec = Some (Z.of_nat (List.length (Spec.data spec))) /\
  Spec.frames spec = Some (map (fun c : cycle => List.length c) (Spec.data spec)) /\
  Spec.total_frames spec = Some (List.length (concat (Spec.data spec))) /\
  (Spec.randomize spec = true <-> exists args kwargs, (Crandomize, args, kwargs) ∈ cmds).
Proof.
  intros (_ & spec' & frame0 & cycle0 & rest & Hcmds & _ & _ & ->)%spinner_compiler_inv.
  apply apply_extra_commands_keeps in Hcmds as (Hnat & _ & _ & _ & Hrnd).
  unfold with_info. cbn [Spec.natural Spec.cycles Spec.frames Spec.total_frames
                         Spec.randomize Spec.data Spec.set_info].
  rewrite sum_list_length_concat, Hnat, Hrnd. repeat split; try done.
  - simpl. intros (r & Hin & Hr)%existsb_exists.
    destruct r as [[c a] k]. destruct c; try done. exists a, k. by apply list_elem_of_In.
  - intros (a & k & Hin). simpl. apply existsb_exists.
    exists (Crandomize, a, k). split; [by apply list_elem_of_In|done].
Qed.

(** X22. A call of the runner raises only [IndexError], on a random runner
    over no cycle, or [RuntimeError], on a runner whose cycle generator has
    finished; after a call that raised, every later call raises
    [RuntimeError]. *)
Theorem runner_stays_broken (r r' : runner) (g g' : rng) (e : exn) :
  spinner_runner r g = (Raise e, r', g') ->
  ((e = IndexError /\ Spec.data (r_spec r) = [] /\ r_cycle_gen r = random_cycle_data) \/
   (e = RuntimeError /\ r_cycle_gen r = finished)) /\
  forall g2, spinner_runner r' g2 = (Raise RuntimeError, r', g2).
Proof.
  unfold spinner_runner. destruct r as [attrs spec gen]. cbn [r_spec r_cycle_gen r_attributes].
  destruct gen as [[|c pending]| |]; simpl.
  - by destruct (Spec.data spec).
  - done.
  - unfold choice. destruct (Spec.data spec) as [|c data]; [|done].
    intros [= <- <- <-]. split; [by left|]. done.
  - intros [= <- <- <-]. split; [by right|]. done.
Qed.

(** X23. A runner that the factory returns over no cycle at all, which its
    commands can bring about: when the spec was sequential a call neither
    yields nor returns and leaves the runner as it was; when the spec was
    randomized the call raises [IndexError] and the cycle generator is
    finished. *)
Theorem runner_without_cycles (spec : Spec.t) (cmds : list record)
    (out : list string) (r : runner) :
  spinner_runner_factory spec cmds = (out, inr r) ->
  Spec.data (r_spec r) = [] ->
  forall g,
    spinner_runner r g =
      if Spec.randomize spec
      then (Raise IndexError, Runner spec (r_spec r) finished, g)
      else (Diverge, r, g).
Proof.
  intros (spec' & ->)%spinner_runner_factory_inv. cbn [r_spec]. intros Hnil g.
  unfold spinner_runner. cbn [r_spec r_cycle_gen r_attributes].
  destruct (Spec.randomize spec); simpl; by rewrite Hnil.
Qed.

End More_compiler.

(** ** More on the controller *)

Lemma sig_bind_cases params args kwargs :
  sig_bind params args kwargs = raise TypeError \/
  exists arguments, sig_bind params args kwargs = ret arguments.
Proof.
  destruct (outcome (sig_bind params args kwargs)) as [e|arguments] eqn:Hb.
  - left. by eapply sig_bind_raises.
  - right. exists arguments. apply silent_inr; [apply silent_sig_bind|done].
Qed.

(** X24. Scheduling raises [TypeError] when there are more positional
    arguments than parameters after [spec], when a keyword is [spec], when a
    keyword is not a parameter of the command, and when a required parameter
    gets neither a positional nor a keyword argument. *)
Theorem schedule_command_refuses (ctl : controller) (c : command)
    (args : list value) (kwargs : gmap string value) :
  List.length (tail (signature c)) < List.length args \/
  is_Some (kwargs !! "spec") \/
  (exists k, is_Some (kwargs !! k) /\ k ∉ map p_name (signature c)) \/
  (exists i p, tail (signature c) !! i = Some p /\ List.length args <= i /\
               p_default p = None /\ kwargs !! p_name p = None) ->
  schedule_command ctl c args kwargs = raise TypeError.
Proof.
  intros Hbad. unfold schedule_command.
  destruct (sig_bind_cases (signature c) (VInt 1 :: args) kwargs) as [->|[arguments Hok]];
    [done|].
  exfalso. destruct (signature_spec_first c) as [Hsig Hspec].
  unfold sig_bind in Hok.
  apply bind_inr in Hok as (o1 & [rest a1] & o2 & Hpos & Hok & _).
  apply bind_inr in Hok as (o3 & [left a2] & o4 & Hkey & Hok & _).
  cbn [fst snd] in *. case_decide as Hleft; [|done]. subst left.
  destruct Hbad as [Hlen|[Hs|[(k & Hk & Hnot)|(i & p & Hi & Hle & Hdef & Hkw)]]].
  - rewrite bind_positional_too_many in Hpos; [done|].
    rewrite Hsig. simpl. lia.
  - rewrite Hsig in Hpos. simpl in Hpos. destruct Hs as [v Hv]. by rewrite Hv in Hpos.
  - apply bind_positional_suffix in Hpos as Hsuffix. destruct Hsuffix as [bound Hsuffix].
    assert (Hrest : k ∉ map p_name rest).
    { intros Hin. apply Hnot. rewrite Hsuffix, map_app. apply elem_of_app. by right. }
    pose proof (bind_keywords_leftover _ _ _ _ _ _ _ Hkey Hrest) as Hlook.
    rewrite lookup_empty in Hlook. destruct Hk as [v Hv]. by rewrite Hv in Hlook.
  - apply bind_positional_rest in Hpos as Hrest.
    rewrite Hsig in Hrest. simpl in Hrest.
    rewrite (bind_keywords_missing rest kwargs a1 p) in Hkey; [done| |done|done].
    rewrite Hrest. apply list_elem_of_lookup. exists (i - List.length args).
    rewrite lookup_drop. by replace (List.length args + (i - List.length args)) with i by lia.
Qed.

Lemma schedule_command_cases ctl c args kwargs tag :
  EXTRA_COMMANDS c = Some tag ->
  schedule_command ctl c args kwargs = raise TypeError \/
  schedule_command ctl c args kwargs =
    ret (Controller (op_params ctl)
           (<[tag := default [] (extra_commands ctl !! tag) ++ [(c, args, kwargs)]]>
              (extra_commands ctl))).
Proof.
  intros Htag. unfold schedule_command.
  destruct (sig_bind_cases (signature c) (VInt 1 :: args) kwargs) as [->|[arguments ->]].
  - by left.
  - right. by rewrite bind_ret_l, Htag, bind_ret_l.
Qed.

(** X25. Scheduling two commands of different types in either order comes
    to the same, be it a controller or the [TypeError]. *)
Theorem schedule_command_commutes (ctl : controller)
    (c1 c2 : command) (args1 args2 : list value) (kwargs1 kwargs2 : gmap string value)
    (tag1 tag2 : bool) :
  EXTRA_COMMANDS c1 = Some tag1 -> EXTRA_COMMANDS c2 = Some tag2 -> tag1 <> tag2 ->
  (let* one := schedule_command ctl c1 args1 kwargs1 in
   schedule_command one c2 args2 kwargs2) =
  (let* other := schedule_command ctl c2 args2 kwargs2 in
   schedule_command other c1 args1 kwargs1).
Proof.
  intros H1 H2 Hne.
  destruct (schedule_command_cases ctl c1 args1 kwargs1 tag1 H1) as [E1|E1];
    destruct (schedule_command_cases ctl c2 args2 kwargs2 tag2 H2) as [E2|E2];
    rewrite E1, E2, ?bind_ret_l, ?bind_raise.
  - done.
  - set (other := Controller _ _).
    destruct (schedule_command_cases other c1 args1 kwargs1 tag1 H1) as [E|E].
    + by rewrite E.
    + exfalso. unfold schedule_command in E1, E.
      destruct (sig_bind_cases (signature c1) (VInt 1 :: args1) kwargs1)
        as [Hb|[arguments Hb]]; rewrite Hb in E1, E; [done|].
      by rewrite bind_ret_l, H1, bind_ret_l in E1.
  - set (one := Controller _ _).
    destruct (schedule_command_cases one c2 args2 kwargs2 tag2 H2) as [E|E].
    + by rewrite E.
    + exfalso. unfold schedule_command in E2, E.
      destruct (sig_bind_cases (signature c2) (VInt 1 :: args2) kwargs2)
        as [Hb|[arguments Hb]]; rewrite Hb in E2, E; [done|].
      by rewrite bind_ret_l, H2, bind_ret_l in E2.
  - set (one := Controller _ _). set (other := Controller _ _).
    assert (Hone : schedule_command one c2 args2 kwargs2 =
                   ret (Controller (op_params one)
                          (<[tag2 := default [] (extra_commands one !! tag2)
                                     ++ [(c2, args2, kwargs2)]]> (extra_commands one)))).
    { unfold schedule_command in E2 |- *.
      destruct (sig_bind_cases (signature c2) (VInt 1 :: args2) kwargs2)
        as [Hb|[arguments Hb]]; rewrite Hb in E2 |- *; [done|].
      by rewrite bind_ret_l, H2, bind_ret_l. }
    assert (Hother : schedule_command other c1 args1 kwargs1 =
                   ret (Controller (op_params other)
                          (<[tag1 := default [] (extra_commands other !! tag1)
                                     ++ [(c1, args1, kwargs1)]]> (extra_commands other)))).
    { unfold schedule_command in E1 |- *.
      destruct (sig_bind_cases (signature c1) (VInt 1 :: args1) kwargs1)
        as [Hb|[arguments Hb]]; rewrite Hb in E1 |- *; [done|].
      by rewrite bind_ret_l, H1, bind_ret_l. }
    rewrite Hone, Hother. unfold one, other. cbn [op_params extra_commands].
    rewrite !lookup_insert_ne by done. f_equal. f_equal. by apply insert_insert_ne.
Qed.

Section More_controller.
Context `{CellModel} `{Colors}.
Variable spinner_inner_factory : value -> gmap string value -> py (list (list frame)).
Variable factory_signature : list parameter.

(** X26. After a command has been scheduled, [compiler_dispatcher] calls
    the spinner factory with the operational parameters, hands the commands
    of type [True] to [spinner_compiler] and those of type [False] to
    [spinner_runner_factory], the new command last in the list of its type.
    A command of type [False] thus runs on the compiled spec, after the
    spec info and the width check. *)
Theorem compiler_dispatcher_routes (natural : Z) (ctl ctl' : controller)
    (c : command) (args : list value) (kwargs : gmap string value) (tag : bool)
    (actual_length : value) :
  EXTRA_COMMANDS c = Some tag ->
  schedule_command ctl c args kwargs = ret ctl' ->
  compiler_dispatcher spinner_inner_factory natural false ctl' actual_length =
    let* gen := spinner_inner_factory actual_length (op_params ctl) in
    let* spec :=
      spinner_compiler gen natural
        (default [] (extra_commands ctl !! true)
           ++ (if tag then [(c, args, kwargs)] else [])) in
    let* r :=
      spinner_runner_factory spec
        (default [] (extra_commands ctl !! false)
           ++ (if tag then [] else [(c, args, kwargs)])) in
    ret (inr r).
Proof.
  intros Htag Hsched.
  destruct (schedule_command_cases ctl c args kwargs tag Htag) as [E|E];
    rewrite E in Hsched; [done|]. injection Hsched as <-.
  unfold compiler_dispatcher. cbn [op_params extra_commands].
  destruct tag.
  - rewrite lookup_insert_eq, lookup_insert_ne by done. cbn [default].
    by rewrite app_nil_r.
  - rewrite lookup_insert_eq, lookup_insert_ne by done. cbn [default].
    by rewrite app_nil_r.
Qed.

(** X27. With nothing scheduled [compiler_dispatcher] compiles what the
    factory makes, with no command, and returns a sequential runner whose
    attributes and spec are the compiled spec. *)
Theorem compiler_dispatcher_without_commands (natural : Z)
    (params : gmap string value) (actual_length : value) :
  compiler_dispatcher spinner_inner_factory natural false (Controller params ∅)
    actual_length =
    let* gen := spinner_inner_factory actual_length params in
    let* spec := spinner_compiler gen natural [] in
    ret (inr (Runner spec spec (ordered_cycle_data []))).
Proof.
  unfold compiler_dispatcher. cbn [op_params extra_commands].
  rewrite !lookup_empty. cbn [default].
  apply bind_ext. intros gen.
  destruct (spinner_compiler gen natural []) as [out [e|spec]] eqn:Hc; [done|].
  apply spinner_compiler_inv in Hc as Hinv.
  destruct Hinv as (-> & spec' & frame0 & cycle0 & rest & Hcmds & _ & _ & ->).
  injection Hcmds as <-.
  change (bind ([], inr ?x) ?k) with (bind (ret x) k).
  rewrite !bind_ret_l, spinner_runner_factory_default, bind_ret_l. done.
Qed.

(** X28. [set_operational] either raises [TypeError] or returns the
    controller with the given parameters in place of the former ones and
    with the same commands; what it returned treats later parameters as the
    controller it came from does; and a keyword that names the factory's
    first parameter, the one of the actual length, is refused. *)
Theorem set_operational_replaces (ctl : controller) (params : gmap string value) :
  (set_operational factory_signature ctl params = raise TypeError \/
   set_operational factory_signature ctl params =
     ret (Controller params (extra_commands ctl))) /\
  (forall ctl' later,
      set_operational factory_signature ctl params = ret ctl' ->
      set_operational factory_signature ctl' later =
      set_operational factory_signature ctl later) /\
  (match factory_signature with
   | [] => True
   | first :: _ => is_Some (params !! p_name first)
   end ->
   set_operational factory_signature ctl params = raise TypeError).
Proof.
  unfold set_operational. split; [|split].
  - destruct (sig_bind_cases factory_signature [VNone] params) as [->|[a ->]];
      [by left|by right].
  - intros ctl' later Hset.
    destruct (sig_bind_cases factory_signature [VNone] params) as [Hb|[a Hb]];
      rewrite Hb in Hset; [done|].
    rewrite bind_ret_l in Hset. by injection Hset as <-.
  - intros Hfirst. unfold sig_bind.
    destruct factory_signature as [|first rest]; [done|].
    simpl. destruct Hfirst as [v ->]. done.
Qed.

(** X29. Setting the operational parameters and scheduling a command of
    the table come to the same in either order. *)
Theorem set_operational_schedule_command (ctl : controller)
    (params : gmap string value) (c : command) (args : list value)
    (kwargs : gmap string value) (tag : bool) :
  EXTRA_COMMANDS c = Some tag ->
  (let* styled := set_operational factory_signature ctl params in
   schedule_command styled c args kwargs) =
  (let* scheduled := schedule_command ctl c args kwargs in
   set_operational factory_signature scheduled params).
Proof.
  intros Htag. unfold set_operational, schedule_command. rewrite Htag.
  destruct (sig_bind_cases factory_signature [VNone] params) as [->|[a ->]];
    destruct (sig_bind_cases (signature c) (VInt 1 :: args) kwargs) as [->|[b ->]];
    by rewrite ?bind_ret_l, ?bind_raise.
Qed.

End More_controller.

(** ** Counts beyond the largest size *)

Lemma for_each_no_frames {B} (f : cycle -> py (list B)) (data : list cycle) :
  concat data = [] -> f [] = ret [] -> for_each f data = ret (map (fun _ => []) data).
Proof.
  intros Hnil Hf. induction data as [|c data IH]; [done|].
  simpl in Hnil. apply app_eq_nil in Hnil as [-> Hnil].
  simpl. by rewrite Hf, bind_ret_l, IH, bind_ret_l.
Qed.

Lemma for_each_first_frame {B} (f : cycle -> py (list B)) (data : list cycle) e :
  concat data <> [] -> f [] = ret [] ->
  (forall c, c <> [] -> f c = raise e) ->
  for_each f data = raise e.
Proof.
  intros Hframe Hnil Hf. induction data as [|c data IH]; [done|].
  simpl. destruct c as [|x c].
  - rewrite Hnil, bind_ret_l. simpl in Hframe. by rewrite IH.
  - by rewrite Hf.
Qed.

(** X30. Beyond [sys.maxsize]: [reshape] by such a size raises
    [ValueError] whatever the data; [pause] with such an edge count raises
    [OverflowError] when some cycle has a frame, and returns the spec
    unchanged when none has. *)
Theorem counts_beyond_maxsize (spec : Spec.t) (n : Z) :
  (maxsize < n)%Z ->
  reshape spec (VInt n) = raise ValueError /\
  (forall n_middle : option Z,
      (concat (Spec.data spec) <> [] ->
       pause spec (VInt n) (arg_of n_middle) = raise OverflowError) /\
      (concat (Spec.data spec) = [] ->
       pause spec (VInt n) (arg_of n_middle) = ret spec)).
Proof.
  intros Hn. pose proof maxsize_pos as Hmax. split.
  - unfold reshape.
    replace (maxsize <? n)%Z with true by (symmetry; apply Z.ltb_lt; lia).
    by rewrite orb_true_r.
  - intros n_middle. change (VInt n) with (arg_of (Some n)).
    unfold pause. rewrite !max_int_or_default, !bind_ret_l.
    replace (n =? 0)%Z with false by (symmetry; apply Z.eqb_neq; lia).
    replace (Z.max 1 n) with n by lia.
    split; intros Hdata.
    + rewrite (for_each_first_frame _ _ OverflowError); [done|done|done|].
      intros [|f c] Hc; [done|]. cbn [imap for_each].
      change (Z.of_nat 0 =? 0)%Z with true. cbn [orb].
      by rewrite repeat_beyond_maxsize.
    + rewrite for_each_no_frames by done. rewrite bind_ret_l.
      replace (map (fun _ : cycle => []) (Spec.data spec)) with (Spec.data spec).
      { by destruct spec. }
      clear -Hdata. induction (Spec.data spec) as [|c data IH]; [done|].
      simpl in Hdata. apply app_eq_nil in Hdata as [-> Hdata]. simpl. f_equal. by apply IH.
Qed.

(** ** The properties at work on sample frames *)

Import Sample.

(** C1, against the claim as stated: on two frames of widths 4 and 5 the
    error raised is the [AssertionError] with the fixed message, which shows
    the text of no frame; the dump is on the standard output instead. *)
Lemma assertion_error_carries_no_dump :
  exists dump e,
    spinner_compiler mismatched_frames 4 [] = (dump, inl e) /\
    e = AssertionError (VStr different_lengths_message) /\
    ~ carries_dump e mismatched_frames /\
    Forall (Forall (fun f : frame => existsb (occurs (join_cells f)) dump = true))
           mismatched_frames.
Proof.
  eexists _, _. split; [vm_compute; reflexivity|]. split; [reflexivity|]. split.
  - intros (message & Heq & Hall). injection Heq as <-.
    apply Forall_inv, Forall_inv in Hall. vm_compute in Hall. discriminate.
  - repeat constructor.
Qed.

(** C1 at work: frames of equal widths compile, frames of widths 4 and 5
    raise after a dump of two prints. *)
Lemma spinner_compiler_checks_widths_witness :
  (spinner_compiler matched_frames 4 [] = ret compiled_sample /\
   uniform 4 (Spec.data compiled_sample) /\
   Spec.length compiled_sample = Some 4) /\
  (exists dump,
      spinner_compiler mismatched_frames 4 [] =
        (dump, inl (AssertionError (VStr different_lengths_message))) /\
      List.length dump = 2).
Proof.
  split.
  - destruct (spinner_compiler_checks_widths matched_frames 4 []) as [Hok _].
    destruct (Hok [] compiled_sample) as (spec' & f0 & c0 & rest & _ & _ & Hd & Hl & Hu).
    { vm_compute. reflexivity. }
    injection Hd as <- _ _. split; [vm_compute; reflexivity|]. split; [exact Hu|exact Hl].
  - destruct (spinner_compiler_checks_widths mismatched_frames 4 []) as [_ Hbad].
    destruct (Hbad (initial mismatched_frames 4) (cells_of "[--]") [cells_of "[===]"] [])
      as [Hraise Hlen].
    + reflexivity.
    + reflexivity.
    + exists (frames_of ["[--]"; "[===]"]), (cells_of "[--]"),
             (frames_of ["[--]"; "[===]"]), (cells_of "[===]").
      repeat split; try (vm_compute; repeat constructor); discriminate.
    + eexists. split; [exact Hraise|exact Hlen].
Defined.

(** C2 at work on three cycles, with the runner the factory builds by
    default and with one it builds after a [pause] of its own. *)
Lemma sequential_runner_wraps_witness :
  (exists r0 r',
      spinner_runner_factory three_cycles [] = ret r0 /\
      invocations 4 r0 (rng_of []) =
        Some ([frames_of ["a"]; frames_of ["b"]; frames_of ["c"]; frames_of ["a"]],
              r', rng_of [])) /\
  (exists r0 r',
      spinner_runner_factory three_cycles [(Cpause, [VInt 2], ∅)] = ret r0 /\
      invocations 4 r0 (rng_of []) =
        Some ([frames_of ["a"; "a"]; frames_of ["b"; "b"]; frames_of ["c"; "c"];
               frames_of ["a"; "a"]],
              r', rng_of [])).
Proof.
  destruct (sequential_runner_wraps three_cycles eq_refl) as [(r0 & Hf & Hspec) Hall].
  split.
  - destruct (Hall [] [] r0 Hf) as [_ H3]; [by rewrite Hspec|].
    destruct (H3 (frames_of ["a"]) (frames_of ["b"]) (frames_of ["c"]) (rng_of []))
      as [r' Hr']; [by rewrite Hspec|].
    exists r0, r'. split; [exact Hf | exact Hr'].
  - assert (Hf2 : spinner_runner_factory three_cycles [(Cpause, [VInt 2], ∅)] =
                  ret (Runner three_cycles three_cycles_paused (ordered_cycle_data [])))
      by (vm_compute; reflexivity).
    destruct (Hall _ _ _ Hf2) as [_ H3]; [discriminate|].
    destruct (H3 (frames_of ["a"; "a"]) (frames_of ["b"; "b"]) (frames_of ["c"; "c"])
                 (rng_of []) eq_refl) as [r' Hr'].
    eexists _, r'. split; [exact Hf2 | exact Hr'].
Defined.

(** C3 at work on two cycles of three frames. *)
Lemma transpose_involutive_witness :
  (let* once := transpose (spec_of two_by_three) in transpose once) =
  ret (spec_of two_by_three).
Proof.
  apply (transpose_involutive (spec_of two_by_three) 3);
    [by repeat constructor | repeat constructor].
Defined.

(** C4 at work: two cycles of two frames regrouped by three. *)
Lemma reshape_regroups_witness :
  exists data',
    reshape (spec_of [frames_of ["a"; "b"]; frames_of ["c"; "d"]]) (VInt 3) =
      ret (Spec.set_data data' (spec_of [frames_of ["a"; "b"]; frames_of ["c"; "d"]])) /\
    concat data' = frames_of ["a"; "b"; "c"; "d"] /\
    data' !! 0 = Some (frames_of ["a"; "b"; "c"]) /\
    data' !! 1 = Some (frames_of ["d"]).
Proof.
  destruct (reshape_regroups (spec_of [frames_of ["a"; "b"]; frames_of ["c"; "d"]]) 3)
    as (data' & Hr & Hflat & _ & _); [unfold maxsize; lia|].
  exists data'. split; [exact Hr|]. split; [exact Hflat|].
  vm_compute in Hr. injection Hr as <-. split; reflexivity.
Defined.

(** C4, against the claim as stated: a positive group size beyond
    [sys.maxsize] is refused. *)
Lemma reshape_refuses_beyond_maxsize :
  (0 < maxsize + 1)%Z /\
  reshape (spec_of two_by_three) (VInt (maxsize + 1)) = raise ValueError.
Proof. split; [done|reflexivity]. Qed.

(** C5 at work: edges twice, the middle three times. *)
Lemma pause_repeats_edges_and_middle_witness :
  pause (spec_of [frames_of ["a"; "b"; "c"]]) (VInt 2) (VInt 3) =
    ret (spec_of [frames_of ["a"; "a"; "b"; "b"; "b"; "c"; "c"]]).
Proof.
  destruct (pause_repeats_edges_and_middle (spec_of [frames_of ["a"; "b"; "c"]])
              (Some 2%Z) (Some 3%Z)) as (_ & _ & Hpause).
  - intros z [= <-]. unfold maxsize. lia.
  - intros z [= <-]. unfold maxsize. lia.
  - exact Hpause.
Defined.

(** C5, against the claim as stated: a supplied edge count of [0] is not
    floored to one, it takes the default of six. *)
Lemma pause_zero_edges_is_default :
  let spec := spec_of [frames_of ["a"; "b"; "c"]] in
  pause spec (VInt 0) (VInt 1) =
    ret (spec_of [frames_of ["a"; "a"; "a"; "a"; "a"; "a"; "b";
                             "c"; "c"; "c"; "c"; "c"; "c"]]) /\
  pause_floored spec 0 1 = spec /\
  pause spec (VInt 0) (VInt 1) <> ret (pause_floored spec 0 1).
Proof. split; [reflexivity|]. split; [reflexivity|discriminate]. Qed.

(** [compiled_sample] is a compiled spec. *)
Lemma compiled_sample_is_compiled : compiled compiled_sample.
Proof. exists matched_frames, 4%Z, [], []. vm_compute. reflexivity. Defined.

(** C6 at work on [compiled_sample]. *)
Lemma randomize_sets_policy_witness :
  exists spec',
    randomize compiled_sample (VInt 5) = ret spec' /\
    Spec.randomize spec' = true /\
    Spec.cycles spec' = Some 5%Z /\
    Spec.data spec' = Spec.data compiled_sample.
Proof.
  destruct (randomize_sets_policy compiled_sample (Some 5%Z) compiled_sample_is_compiled)
    as (spec' & Hr & Hflag & Hcycles & Hdata & _).
  exists spec'. split; [exact Hr|]. split; [exact Hflag|]. split; [exact Hcycles|exact Hdata].
Defined.

(** C7 at work: the second cycle twice in a row, then the first. *)
Lemma randomized_runner_selects_witness :
  exists r0 g r' g',
    spinner_runner_factory randomized_sample [] = ret r0 /\
    invocations 3 r0 g =
      Some ([frames_of ["d"; "e"; "f"]; frames_of ["d"; "e"; "f"]; frames_of ["a"; "b"; "c"]],
            r', g').
Proof.
  destruct (randomized_runner_selects randomized_sample eq_refl) as [(r0 & Hf & Hspec) Hall].
  destruct (Hall [] [] r0 Hf) as [_ Hpicks]; [by rewrite Hspec|].
  destruct (Hpicks [1; 1; 0]) as (g & r' & g' & Hinv).
  { rewrite Hspec. repeat constructor. }
  exists r0, g, r', g'. split; [exact Hf|].
  cbn [List.length] in Hinv. rewrite Hinv, Hspec. reflexivity.
Defined.

(** C8 at work: [pause] scheduled with a positional and a keyword
    argument; refused with three positional arguments and with a keyword
    that names no parameter; [reshape] refused without its required
    argument. *)
Lemma schedule_command_binds_at_once_witness :
  (exists ctl',
      schedule_command (Controller ∅ ∅) Cpause [VInt 2] {["n_middle" := VInt 3]} =
        ret ctl' /\
      extra_commands ctl' !! false =
        Some [(Cpause, [VInt 2], {["n_middle" := VInt 3]})] /\
      extra_commands ctl' !! true = None) /\
  schedule_command (Controller ∅ ∅) Cpause [VInt 2; VInt 3; VInt 4] ∅ = raise TypeError /\
  schedule_command (Controller ∅ ∅) Cpause [] {["frames" := VInt 3]} = raise TypeError /\
  schedule_command (Controller ∅ ∅) Creshape [] ∅ = raise TypeError.
Proof.
  split; [|split; [|split]].
  - destruct (schedule_command_binds_at_once (Controller ∅ ∅) Cpause [VInt 2]
                {["n_middle" := VInt 3]} false eq_refl) as [Hok _].
    destruct Hok as (ctl' & Hs & Hmine & Hother & _).
    { split; [simpl; lia|]. split.
      - intros k [v [<- _]%lookup_singleton_Some]. simpl. left.
      - intros p Hp Hdef. simpl in Hp. apply list_elem_of_singleton in Hp. by subst p. }
    exists ctl'. split; [exact Hs|]. split; [exact Hmine|exact Hother].
  - destruct (schedule_command_binds_at_once (Controller ∅ ∅) Cpause
                [VInt 2; VInt 3; VInt 4] ∅ false eq_refl) as [_ Hrej].
    apply Hrej. intros [Hlen _]. simpl in Hlen. lia.
  - destruct (schedule_command_binds_at_once (Controller ∅ ∅) Cpause
                [] {["frames" := VInt 3]} false eq_refl) as [_ Hrej].
    apply Hrej. intros (_ & Hkeys & _).
    specialize (Hkeys "frames"%string). simpl in Hkeys.
    rewrite lookup_singleton_eq in Hkeys. specialize (Hkeys (mk_is_Some _ _ eq_refl)).
    apply elem_of_cons in Hkeys as [Hk|Hkeys]; [discriminate|].
    apply elem_of_cons in Hkeys as [Hk|Hkeys]; [discriminate|].
    by apply elem_of_nil in Hkeys.
  - destruct (schedule_command_binds_at_once (Controller ∅ ∅) Creshape [] ∅ false eq_refl)
      as [_ Hrej].
    apply Hrej. intros (_ & _ & Hreq).
    destruct (Hreq (Parameter_ "num_frames" None)) as [v Hv]; [simpl; left|reflexivity|].
    by rewrite lookup_empty in Hv.
Defined.

(** C9 at work: no cycle at all, commands run on no cycle, no cycle
    regrouped, and groups of zero frames. *)
Lemma spinner_compiler_empty_data_witness :
  spinner_compiler [] 4 [] = raise IndexError /\
  spinner_compiler [] 4 [(Cpause, [], ∅); (Ctranspose, [], ∅)] = raise IndexError /\
  spinner_compiler [] 4 [(Creshape, [VInt 3], ∅)] = raise IndexError /\
  spinner_compiler two_by_three 4 [(Creshape, [VInt 0], ∅)] = raise IndexError.
Proof.
  destruct spinner_compiler_empty_data as (Hnone & Hcmds & _ & Hreshape).
  split; [apply Hnone|]. split; [|split].
  - apply (Hcmds 4%Z _ (initial [] 4)). vm_compute. reflexivity.
  - apply Hreshape; [unfold maxsize; lia | by left].
  - apply Hreshape; [unfold maxsize; lia | by right].
Defined.

(** The width check is not reached either when only the first cycle is
    empty. *)
Lemma spinner_compiler_empty_first_cycle :
  spinner_compiler [[]; frames_of ["[--]"; "[===]"]] 4 [] = raise IndexError.
Proof. reflexivity. Qed.

(** ** The further properties at work *)

(** X1 at work: an edge count below one and a middle count of one. *)
Lemma pause_once_is_identity_witness :
  pause (spec_of two_by_three) (VInt (-3)) (VInt 1) = ret (spec_of two_by_three).
Proof.
  apply (pause_once_is_identity (spec_of two_by_three) (-3) (Some 1%Z)); [lia|lia|].
  intros m [= <-]. lia.
Defined.

(** X2 at work: three frames with edges twice make five. *)
Lemma pause_frame_counts_witness :
  exists spec',
    pause (spec_of two_by_three) (VInt 2) VNone = ret spec' /\
    map (fun c : cycle => List.length c) (Spec.data spec') = [5; 5].
Proof.
  destruct (pause_frame_counts (spec_of two_by_three) (Some 2%Z) None)
    as (spec' & Hpause & Hcounts).
  - vm_compute. discriminate.
  - vm_compute. discriminate.
  - exists spec'. split; [exact Hpause | exact Hcounts].
Defined.

(** X3 at work. *)
Lemma pause_keeps_frames_witness :
  exists spec',
    pause (spec_of two_by_three) (VInt 2) VNone = ret spec' /\
    List.length (Spec.data spec') = 2 /\
    uniform 1 (Spec.data spec').
Proof.
  destruct (pause_keeps_frames (spec_of two_by_three) (Some 2%Z) None)
    as (spec' & Hpause & Hlen & _ & Hwidths).
  - vm_compute. discriminate.
  - vm_compute. discriminate.
  - exists spec'. split; [exact Hpause|]. split; [exact Hlen|].
    apply Hwidths. repeat constructor.
Defined.

(** X4 at work. *)
Lemma pause_rejects_text_witness :
  pause (spec_of two_by_three) (VStr "x") VNone = raise TypeError /\
  pause (spec_of two_by_three) (VInt 2) (VStr "x") = raise TypeError.
Proof.
  destruct (pause_rejects_text (spec_of two_by_three) "x" VNone) as (Hedge & Hmiddle & _).
  { discriminate. }
  split; [exact Hedge | exact (Hmiddle (Some 2%Z))].
Defined.

(** X5 at work. *)
Lemma reshape_rejects_bad_sizes_witness :
  reshape (spec_of two_by_three) (VInt (-1)) = raise ValueError /\
  reshape (spec_of two_by_three) (VInt 0) = ret (spec_of []).
Proof.
  destruct (reshape_rejects_bad_sizes (spec_of two_by_three)) as (Hneg & _ & Hzero).
  split; [apply Hneg; lia | exact Hzero].
Defined.

(** X6 at work: six frames grouped by ten. *)
Lemma reshape_one_group_witness :
  reshape (spec_of two_by_three) (VInt 10) =
    ret (spec_of [frames_of ["a"; "b"; "c"; "d"; "e"; "f"]]).
Proof.
  destruct (reshape_one_group (spec_of two_by_three) 10) as [Hint _].
  - discriminate.
  - simpl. unfold maxsize. lia.
  - exact Hint.
Defined.

(** X7 at work. *)
Lemma reshape_after_reshape_witness :
  (let* once := reshape (spec_of two_by_three) (VInt 2) in reshape once (VInt 4)) =
  reshape (spec_of two_by_three) (VInt 4).
Proof.
  apply (reshape_after_reshape (spec_of two_by_three) 2 4); unfold maxsize; lia.
Defined.

(** X8 at work: six frames by four make two cycles. *)
Lemma reshape_cycle_count_witness :
  exists spec',
    reshape (spec_of two_by_three) (VInt 4) = ret spec' /\
    List.length (Spec.data spec') = 2.
Proof.
  destruct (reshape_cycle_count (spec_of two_by_three) 4) as (spec' & Hr & Hlen);
    [unfold maxsize; lia|].
  exists spec'. split; [exact Hr | exact Hlen].
Defined.

(** X9 at work. *)
Lemma reshape_own_size_is_identity_witness :
  reshape (spec_of two_by_three) (VInt 3) = ret (spec_of two_by_three).
Proof.
  apply (reshape_own_size_is_identity (spec_of two_by_three) 3); [unfold maxsize; lia|].
  repeat constructor.
Defined.

(** X10 at work. *)
Lemma reshape_keeps_widths_witness :
  exists spec',
    reshape (spec_of two_by_three) (VInt 4) = ret spec' /\ uniform 1 (Spec.data spec').
Proof.
  destruct (reshape_keeps_widths (spec_of two_by_three) 4 1) as (spec' & Hr & Hw);
    [unfold maxsize; lia|].
  exists spec'. split; [exact Hr|]. apply Hw. repeat constructor.
Defined.

(** X11 at work: the second frame of the first cycle becomes the first
    frame of the second cycle. *)
Lemma transpose_swaps_places_witness :
  exists spec',
    transpose (spec_of two_by_three) = ret spec' /\
    List.length (Spec.data spec') = 3 /\
    Spec.data spec' !! 1 ≫= (.!! 0) = Some (cells_of "b").
Proof.
  destruct (transpose_swaps_places (spec_of two_by_three)) as (spec' & Ht & Hlen & _ & Hat).
  exists spec'. split; [exact Ht|]. split; [apply Hlen; discriminate|].
  rewrite (Hat 0 1); [reflexivity | simpl; lia].
Defined.

(** X14 at work. *)
Lemma transpose_keeps_widths_witness :
  exists spec', transpose (spec_of two_by_three) = ret spec' /\ uniform 1 (Spec.data spec').
Proof.
  apply (transpose_keeps_widths (spec_of two_by_three) 1). repeat constructor.
Defined.

(** X15 at work: a number for [old], with and without a frame. *)
Lemma replace_needs_strings_witness :
  replace (spec_of two_by_three) (VInt 1) (VStr "x") = raise TypeError /\
  replace (spec_of [[]; []]) (VInt 1) (VStr "x") = ret (spec_of [[]; []]).
Proof.
  split.
  - destruct (replace_needs_strings (spec_of two_by_three) (VInt 1) (VStr "x")) as [_ Hbad].
    apply Hbad; [exact I | discriminate].
  - destruct (replace_needs_strings (spec_of [[]; []]) (VInt 1) (VStr "x")) as [Hnone _].
    apply Hnone. reflexivity.
Defined.

(** X16 at work. *)
Lemma randomize_before_spec_info_witness :
  randomize (spec_of two_by_three) VNone = raise (AttributeError "cycles") /\
  randomize (spec_of two_by_three) (VInt 7) =
    ret (Spec.set_randomize_cycles true 7 (spec_of two_by_three)).
Proof.
  split.
  - exact (randomize_before_spec_info (spec_of two_by_three) None eq_refl).
  - exact (randomize_before_spec_info (spec_of two_by_three) (Some 7%Z) eq_refl).
Defined.

(** X17 at work: the count of five stays. *)
Lemma randomize_again_witness :
  randomize (Spec.set_randomize_cycles true 5 compiled_sample) VNone =
    ret (Spec.set_randomize_cycles true 5 compiled_sample).
Proof.
  apply (randomize_again compiled_sample _ (Some 5%Z) None). reflexivity.
Defined.

(** X19 at work: a negative group size after a [pause]. *)
Lemma apply_extra_commands_raises_witness :
  let cmds := [(Cpause, [], ∅); (Creshape, [VInt (-1)], ∅)] in
  outcome (apply_extra_commands (spec_of two_by_three) cmds) = inl ValueError /\
  exists args kwargs, (Creshape, args, kwargs) ∈ cmds.
Proof.
  intros cmds. split; [vm_compute; reflexivity|].
  destruct (apply_extra_commands_raises (spec_of two_by_three) cmds ValueError)
    as [Hno|[[_ Hreshape]|[[Hno _]|[Hno _]]]].
  - vm_compute. reflexivity.
  - discriminate.
  - exact Hreshape.
  - discriminate.
  - discriminate.
Defined.

(** X20 at work: the mismatched frames are printed. *)
Lemma spinner_compiler_output_witness :
  stdout (spinner_compiler mismatched_frames 4 []) <> [] /\
  stdout (spinner_compiler [] 4 []) = [].
Proof.
  split.
  - apply (spinner_compiler_output mismatched_frames 4 []). vm_compute. reflexivity.
  - reflexivity.
Defined.

(** X21 at work: the count of seven is gone. *)
Lemma spinner_compiler_spec_info_witness :
  Spec.natural randomized_sample = 1%Z /\
  Spec.cycles randomized_sample = Some 2%Z /\
  Spec.total_frames randomized_sample = Some 6 /\
  Spec.randomize randomized_sample = true.
Proof.
  destruct (spinner_compiler_spec_info two_by_three 1 [(Crandomize, [VInt 7], ∅)] []
              randomized_sample) as (Hnat & Hcyc & _ & Htot & Hrnd).
  { vm_compute. reflexivity. }
  split; [exact Hnat|]. split; [exact Hcyc|]. split; [exact Htot|].
  apply Hrnd. exists [VInt 7], ∅. left.
Defined.

(** X22 at work: a random runner over no cycle. *)
Lemma runner_stays_broken_witness :
  let broken := Runner (spec_of []) (spec_of []) finished in
  spinner_runner (Runner (spec_of []) (spec_of []) random_cycle_data) (rng_of []) =
    (Raise IndexError, broken, rng_of []) /\
  spinner_runner broken (rng_of [1]) = (Raise RuntimeError, broken, rng_of [1]).
Proof.
  intros broken. split; [reflexivity|].
  destruct (runner_stays_broken (Runner (spec_of []) (spec_of []) random_cycle_data)
              broken (rng_of []) (rng_of []) IndexError eq_refl) as [_ Hlater].
  exact (Hlater (rng_of [1])).
Defined.

(** X23 at work: the factory's own [reshape] by zero empties the data. *)
Lemma runner_without_cycles_witness :
  let r := Runner (spec_of two_by_three) (spec_of []) (ordered_cycle_data []) in
  spinner_runner_factory (spec_of two_by_three) [(Creshape, [VInt 0], ∅)] = ret r /\
  spinner_runner r (rng_of []) = (Diverge, r, rng_of []).
Proof.
  intros r.
  assert (Hf : spinner_runner_factory (spec_of two_by_three) [(Creshape, [VInt 0], ∅)] =
               ret r) by (vm_compute; reflexivity).
  split; [exact Hf|].
  exact (runner_without_cycles _ _ _ _ Hf eq_refl (rng_of [])).
Defined.

(** X24 at work. *)
Lemma schedule_command_refuses_witness :
  schedule_command inner_controller Creshape [] ∅ = raise TypeError /\
  schedule_command inner_controller Cpause [VInt 2; VInt 3; VInt 4] ∅ = raise TypeError /\
  schedule_command inner_controller Cpause [] {["spec" := VInt 2]} = raise TypeError /\
  schedule_command inner_controller Cpause [] {["n_frames" := VInt 2]} = raise TypeError.
Proof.
  split; [|split; [|split]]; apply schedule_command_refuses.
  - right; right; right. exists 0, (Parameter_ "num_frames" None).
    split; [reflexivity|]. split; [simpl; lia|]. split; reflexivity.
  - left. simpl. lia.
  - right; left. exists (VInt 2). reflexivity.
  - right; right; left. exists "n_frames"%string. split; [by exists (VInt 2)|].
    simpl. rewrite !not_elem_of_cons. repeat split; try discriminate. apply not_elem_of_nil.
Defined.

(** X25 at work. *)
Lemma schedule_command_commutes_witness :
  (let* one := schedule_command inner_controller Cpause [VInt 2] ∅ in
   schedule_command one Crandomize [] ∅) =
  (let* other := schedule_command inner_controller Crandomize [] ∅ in
   schedule_command other Cpause [VInt 2] ∅).
Proof.
  apply (schedule_command_commutes inner_controller Cpause Crandomize [VInt 2] [] ∅ ∅
           false true); [reflexivity|reflexivity|discriminate].
Defined.

(** X26 at work: a scheduled [pause] runs on the compiled spec, whose
    attributes the runner keeps as they were. *)
Lemma compiler_dispatcher_routes_witness :
  exists ctl' r,
    schedule_command inner_controller Cpause [VInt 2] ∅ = ret ctl' /\
    compiler_dispatcher sample_factory 4 false ctl' VNone = ret (inr r) /\
    r_attributes r = compiled_sample /\
    Spec.data (r_spec r) = matched_frames_paused.
Proof.
  exists (Controller ∅ (<[false := [(Cpause, [VInt 2], ∅)]]> ∅)).
  exists (Runner compiled_sample (Spec.set_data matched_frames_paused compiled_sample)
            (ordered_cycle_data [])).
  assert (Hs : schedule_command inner_controller Cpause [VInt 2] ∅ =
               ret (Controller ∅ (<[false := [(Cpause, [VInt 2], ∅)]]> ∅)))
    by (vm_compute; reflexivity).
  split; [exact Hs|]. split; [|split; reflexivity].
  rewrite (compiler_dispatcher_routes sample_factory 4 inner_controller _ Cpause
             [VInt 2] ∅ false VNone eq_refl Hs).
  vm_compute. reflexivity.
Defined.

(** X28 at work. *)
Lemma set_operational_replaces_witness :
  set_operational sample_signature inner_controller {["actual_length" := VInt 9]} =
    raise TypeError.
Proof.
  destruct (set_operational_replaces sample_signature inner_controller
              {["actual_length" := VInt 9]}) as (_ & _ & Hfirst).
  apply Hfirst. by exists (VInt 9).
Defined.

(** X29 at work. *)
Lemma set_operational_schedule_command_witness :
  (let* styled := set_operational sample_signature inner_controller ∅ in
   schedule_command styled Cpause [VInt 2] ∅) =
  (let* scheduled := schedule_command inner_controller Cpause [VInt 2] ∅ in
   set_operational sample_signature scheduled ∅).
Proof.
  apply (set_operational_schedule_command sample_signature inner_controller ∅ Cpause
           [VInt 2] ∅ false). reflexivity.
Defined.

(** X30 at work. *)
Lemma counts_beyond_maxsize_witness :
  reshape (spec_of two_by_three) (VInt (maxsize + 1)) = raise ValueError /\
  pause (spec_of two_by_three) (VInt (maxsize + 1)) VNone = raise OverflowError /\
  pause (spec_of [[]; []]) (VInt (maxsize + 1)) VNone = ret (spec_of [[]; []]).
Proof.
  split; [|split].
  - destruct (counts_beyond_maxsize (spec_of two_by_three) (maxsize + 1)) as [Hr _];
      [lia | exact Hr].
  - destruct (counts_beyond_maxsize (spec_of two_by_three) (maxsize + 1)) as [_ Hp];
      [lia|]. destruct (Hp None) as [Hraise _]. apply Hraise. discriminate.
  - destruct (counts_beyond_maxsize (spec_of [[]; []]) (maxsize + 1)) as [_ Hp];
      [lia|]. destruct (Hp None) as [_ Hret]. apply Hret. reflexivity.
Defined.
